(** * Client cache of the ansible operator: resource metadata resolution

    A shallow embedding of the [clientCache] of package [client]
    ([newResource], [getUnstructuredResourceByGVK], [getResourceByType],
    [getResource], [getObjMeta], [resourceMeta.isNamespaced],
    [resourceMeta.resource]) together with the properties its design
    document states about it.

    Conventions of the embedding.
    - Go strings are byte sequences: [string] of the Standard Library.
    - A Go map is a [gmap]; a [*resourceMeta] is an address into a heap of
      records, so that two table entries holding the same pointer alias.
    - A Go [(value, error)] result is a [result]: [Ok v] for a nil error.
    - Everything the package imports ([runtime.Object], [runtime.Scheme],
      [meta.RESTMapper], [rest.Config], [apiutil.*], [meta.IsListType],
      [meta.Accessor]) is a member of the [Platform] class: the theorems hold
      for every implementation of it.
    - The operations run in a state monad over the cache, the heap and a
      trace of the lock operations and of the calls that leave the package. *)

From Stdlib Require Import String Ascii.
From stdpp Require Import base option list gmap strings fin_maps.

Open Scope string_scope.
Open Scope list_scope.
Open Scope nat_scope.

(** ** Strings: [strings.HasSuffix] and slicing *)

(** [len(s) >= len(suffix) && s[len(s)-len(suffix):] == suffix] *)
Definition HasSuffix (s suffix : string) : bool :=
  (String.length suffix <=? String.length s)%nat
  && bool_decide
       (substring (String.length s - String.length suffix)
                  (String.length suffix) s = suffix).

(** [s[:len(s)-n]]; every use in the package is guarded by a [HasSuffix] test
    on a suffix of [n] bytes, under which the slice is in range. *)
Definition dropLast (n : nat) (s : string) : string :=
  substring 0 (String.length s - n) s.

(** ** [schema.GroupVersionKind] and [schema.GroupKind] *)

Record GroupVersionKind : Type := mkGVK {
  Group : string;
  Version : string;
  Kind : string;
}.

Record GroupKind : Type := mkGK {
  gkGroup : string;
  gkKind : string;
}.

(** [gvk.GroupKind()] *)
Definition GroupKindOf (gvk : GroupVersionKind) : GroupKind :=
  {| gkGroup := Group gvk; gkKind := Kind gvk |}.

(** [gvk.Kind = k] on a local copy of the struct. *)
Definition setKind (gvk : GroupVersionKind) (k : string) : GroupVersionKind :=
  {| Group := Group gvk; Version := Version gvk; Kind := k |}.

#[global] Instance GroupVersionKind_eq_dec : EqDecision GroupVersionKind.
Proof. solve_decision. Defined.

#[global] Instance GroupVersionKind_countable : Countable GroupVersionKind.
Proof.
  refine (inj_countable' (λ g, (Group g, Version g, Kind g))
                         (λ t, mkGVK t.1.1 t.1.2 t.2) _).
  by intros [].
Defined.

#[global] Instance GroupKind_eq_dec : EqDecision GroupKind.
Proof. solve_decision. Defined.

(** ** [reflect.Type]: the identity of an object's concrete type

    The package tells two concrete types apart by type assertion,
    [*unstructured.Unstructured] and [*unstructured.UnstructuredList]; every
    other concrete type is identified by its name. *)
Inductive reflectType : Type :=
| PtrUnstructured
| PtrUnstructuredList
| PtrTo (name : string).

#[global] Instance reflectType_eq_dec : EqDecision reflectType.
Proof. solve_decision. Defined.

#[global] Instance reflectType_countable : Countable reflectType.
Proof.
  refine (inj_countable'
            (λ t, match t with
                  | PtrUnstructured => inl false
                  | PtrUnstructuredList => inl true
                  | PtrTo n => inr n
                  end)
            (λ e, match e with
                  | inl false => PtrUnstructured
                  | inl true => PtrUnstructuredList
                  | inr n => PtrTo n
                  end) _).
  by intros [].
Defined.

(** ** [meta.RESTMapping] *)

Record RESTScope : Type := mkScope {
  Name : string;                 (* [Scope.Name()] *)
}.

(** A [*meta.RESTMapping]; the mapper returns a non-nil mapping together
    with a nil error, so the pointer is modelled by the struct it points to. *)
Record RESTMapping : Type := mkMapping {
  Resource : string;
  Scope : RESTScope;
}.

(** ** Results

    A Go result pair [(v, err)]: [Ok v] when [err] is nil, [Err e] when the
    function returns the error [e] (and a nil value). *)
Inductive result (E A : Type) : Type :=
| Ok (v : A)
| Err (e : E).
Arguments Ok {E A} v.
Arguments Err {E A} e.

(** ** The imported packages *)

Class Platform : Type := {
  (** values of interface type [runtime.Object] *)
  Object : Type;
  (** the contents of a [*runtime.Scheme], a [meta.RESTMapper], a
      [*rest.Config] and a [serializer.CodecFactory] *)
  Scheme : Type;
  RESTMapper : Type;
  Config : Type;
  CodecFactory : Type;
  (** [rest.Interface]: a REST client *)
  Interface : Type;
  (** [v1.Object]: the accessor of the metadata of one object *)
  V1Object : Type;
  (** non-nil values of [error] *)
  error : Type;

  (** [reflect.TypeOf(obj)] *)
  TypeOf : Object → reflectType;
  (** [obj.GetObjectKind().GroupVersionKind()] *)
  ObjectGVK : Object → GroupVersionKind;
  (** [meta.IsListType(obj)] *)
  IsListType : Object → bool;
  (** [meta.Accessor(obj)] *)
  Accessor : Object → result error V1Object;
  (** [apiutil.GVKForObject(obj, scheme)] *)
  GVKForObject : Object → Scheme → result error GroupVersionKind;
  (** [apiutil.RESTUnstructuredClientForGVK(gvk, config)] *)
  RESTUnstructuredClientForGVK : GroupVersionKind → Config → result error Interface;
  (** [apiutil.RESTClientForGVK(gvk, config, codecs)] *)
  RESTClientForGVK :
    GroupVersionKind → Config → CodecFactory → result error Interface;
  (** [mapper.RESTMapping(groupKind, version)] *)
  RESTMappingOf : RESTMapper → GroupKind → string → result error RESTMapping;
  (** [meta.RESTScopeNameRoot] *)
  RESTScopeNameRoot : string;
}.

(** ** The cache, its records and its state *)

Section ClientCache.
Context `{P : Platform}.

(** A [*resourceMeta]: the address of a record in the heap. *)
Abbreviation ptr := nat (only parsing).

(** [type resourceMeta struct]: the embedded [rest.Interface], [gvk] and
    [mapping]. *)
Record resourceMeta : Type := mkResourceMeta {
  restInterface : Interface;
  gvk : GroupVersionKind;
  mapping : RESTMapping;
}.

(** [type objMeta struct]: the embedded [*resourceMeta] and [v1.Object]. *)
Record objMeta : Type := mkObjMeta {
  metaResource : ptr;
  metaObject : V1Object;
}.

(** [type clientCache struct].  [config], [scheme], [mapper] and [codecs]
    hold what the Go fields point to at the time of a call; the two maps are
    allocated (a write to a nil map panics, the constructor of the cache
    makes them); the two mutexes have no content of their own and appear in
    the trace. *)
Record clientCache : Type := mkClientCache {
  config : Config;
  scheme : Scheme;
  mapper : RESTMapper;
  codecs : CodecFactory;
  resourceByType : gmap reflectType ptr;
  unstructuredResourceByGVK : gmap GroupVersionKind ptr;
}.

Inductive mutex : Type := muByType | muByGVK.

(** What an operation does besides reading and writing the cache. *)
Inductive event : Type :=
| RLock (m : mutex)
| RUnlock (m : mutex)
| Lock (m : mutex)
| Unlock (m : mutex)
| CallGVKForObject (obj : Object)
| CallRESTUnstructuredClientForGVK (g : GroupVersionKind)
| CallRESTClientForGVK (g : GroupVersionKind)
| CallRESTMapping (gk : GroupKind) (version : string).

(** The calls to the type resolver and to the transport factory. *)
Definition isCall (e : event) : bool :=
  match e with
  | RLock _ | RUnlock _ | Lock _ | Unlock _ => false
  | _ => true
  end.

(** The mutex a lock event is about. *)
Definition mutexOf (e : event) : option mutex :=
  match e with
  | RLock m | RUnlock m | Lock m | Unlock m => Some m
  | _ => None
  end.

Record state : Type := mkState {
  cache : clientCache;
  heap : list resourceMeta;
  trace : list event;
}.

(** *** The state monad *)

Definition M (A : Type) : Type := state → A * state.

Definition ret {A} (a : A) : M A := λ s, (a, s).

Definition bind {A B} (m : M A) (k : A → M B) : M B :=
  λ s, let (a, s') := m s in k a s'.

#[local] Instance M_ret : MRet M := @ret.
#[local] Instance M_bind : MBind M := λ A B k m, bind m k.

Definition emit (e : event) : M unit :=
  λ s, (tt, mkState (cache s) (heap s) (trace s ++ [e])).

Definition getCache : M clientCache := λ s, (cache s, s).

(** [&resourceMeta{...}]: a fresh address, the record stored there. *)
Definition alloc (r : resourceMeta) : M ptr :=
  λ s, (length (heap s), mkState (cache s) (heap s ++ [r]) (trace s)).

(** [c.resourceByType[typ] = r] *)
Definition insertByType (typ : reflectType) (r : ptr) (c : clientCache)
  : clientCache :=
  mkClientCache (config c) (scheme c) (mapper c) (codecs c)
    (<[typ := r]> (resourceByType c)) (unstructuredResourceByGVK c).

Definition storeByType (typ : reflectType) (r : ptr) : M unit :=
  λ s, (tt, mkState (insertByType typ r (cache s)) (heap s) (trace s)).

(** [c.unstructuredResourceByGVK[k] = r] *)
Definition insertByGVK (k : GroupVersionKind) (r : ptr) (c : clientCache)
  : clientCache :=
  mkClientCache (config c) (scheme c) (mapper c) (codecs c)
    (resourceByType c) (<[k := r]> (unstructuredResourceByGVK c)).

Definition storeByGVK (k : GroupVersionKind) (r : ptr) : M unit :=
  λ s, (tt, mkState (insertByGVK k r (cache s)) (heap s) (trace s)).

(** The calls that leave the package, recorded in the trace. *)
Definition callGVKForObject (obj : Object) (sch : Scheme)
  : M (result error GroupVersionKind) :=
  emit (CallGVKForObject obj);; ret (GVKForObject obj sch).

Definition callRESTUnstructuredClientForGVK (g : GroupVersionKind)
    (cfg : Config) : M (result error Interface) :=
  emit (CallRESTUnstructuredClientForGVK g);;
  ret (RESTUnstructuredClientForGVK g cfg).

Definition callRESTClientForGVK (g : GroupVersionKind) (cfg : Config)
    (cod : CodecFactory) : M (result error Interface) :=
  emit (CallRESTClientForGVK g);; ret (RESTClientForGVK g cfg cod).

Definition callRESTMapping (m : RESTMapper) (gk : GroupKind) (v : string)
  : M (result error RESTMapping) :=
  emit (CallRESTMapping gk v);; ret (RESTMappingOf m gk v).

(** ** The operations of the cache *)

(** Lines 65-68 of [newResource]: the kind of a list is that of its items. *)
Definition itemGVK (obj : Object) (g : GroupVersionKind) : GroupVersionKind :=
  if HasSuffix (Kind g) "List" && IsListType obj
  then setKind g (dropLast 4 (Kind g))
  else g.

(** [func (c *clientCache) newResource(obj, isUnstructured)] *)
Definition newResource (obj : Object) (isUnstructured : bool)
  : M (result error ptr) :=
  c ← getCache;
  rg ← callGVKForObject obj (scheme c);
  match rg with
  | Err err => ret (Err err)
  | Ok g =>
    let g := itemGVK obj g in
    rc ← (if isUnstructured
             then callRESTUnstructuredClientForGVK g (config c)
             else callRESTClientForGVK g (config c) (codecs c));
    match rc with
    | Err err => ret (Err err)
    | Ok client =>
      rm ← callRESTMapping (mapper c) (GroupKindOf g) (Version g);
      match rm with
      | Err err => ret (Err err)
      | Ok mp =>
        r ← alloc (mkResourceMeta client g mp);
        ret (Ok r)
      end
    end
  end.

(** Lines 89-91 of [getUnstructuredResourceByGVK]: the probe under the read
    lock. *)
Definition probeByGVK (obj : Object) : M (option ptr) :=
  emit (RLock muByGVK);;
  c ← getCache;
  let r := unstructuredResourceByGVK c !! ObjectGVK obj in
  emit (RUnlock muByGVK);;
  ret r.

(** Lines 98-105 of [getUnstructuredResourceByGVK]: construction and insert
    under the write lock, released by the deferred [Unlock] on both
    returns. *)
Definition initByGVK (obj : Object) : M (result error ptr) :=
  emit (Lock muByGVK);;
  rr ← newResource obj true;
  match rr with
  | Err err => emit (Unlock muByGVK);; ret (Err err)
  | Ok r =>
    storeByGVK (ObjectGVK obj) r;;
    emit (Unlock muByGVK);;
    ret (Ok r)
  end.

(** [func (c *clientCache) getUnstructuredResourceByGVK(obj)] *)
Definition getUnstructuredResourceByGVK (obj : Object)
  : M (result error ptr) :=
  known ← probeByGVK obj;
  match known with
  | Some r => ret (Ok r)
  | None => initByGVK obj
  end.

(** Lines 113-115 of [getResourceByType]. *)
Definition probeByType (obj : Object) : M (option ptr) :=
  let typ := TypeOf obj in
  emit (RLock muByType);;
  c ← getCache;
  let r := resourceByType c !! typ in
  emit (RUnlock muByType);;
  ret r.

(** Lines 122-129 of [getResourceByType]. *)
Definition initByType (obj : Object) : M (result error ptr) :=
  let typ := TypeOf obj in
  emit (Lock muByType);;
  rr ← newResource obj false;
  match rr with
  | Err err => emit (Unlock muByType);; ret (Err err)
  | Ok r =>
    storeByType typ r;;
    emit (Unlock muByType);;
    ret (Ok r)
  end.

(** [func (c *clientCache) getResourceByType(obj)] *)
Definition getResourceByType (obj : Object) : M (result error ptr) :=
  known ← probeByType obj;
  match known with
  | Some r => ret (Ok r)
  | None => initByType obj
  end.

(** The two type assertions of [getResource]. *)
Definition isUnstructuredObj (obj : Object) : bool :=
  bool_decide (TypeOf obj = PtrUnstructured).
Definition isUnstructuredListObj (obj : Object) : bool :=
  bool_decide (TypeOf obj = PtrUnstructuredList).

(** [func (c *clientCache) getResource(obj)] *)
Definition getResource (obj : Object) : M (result error ptr) :=
  if isUnstructuredObj obj || isUnstructuredListObj obj
  then getUnstructuredResourceByGVK obj
  else getResourceByType obj.

(** [func (c *clientCache) getObjMeta(obj)] *)
Definition getObjMeta (obj : Object) : M (result error objMeta) :=
  rr ← getResource obj;
  match rr with
  | Err err => ret (Err err)
  | Ok r =>
    match Accessor obj with
    | Err err => ret (Err err)
    | Ok m => ret (Ok (mkObjMeta r m))
    end
  end.

(** [func (r *resourceMeta) isNamespaced() bool]; [r], its mapping and the
    scope of the mapping are not nil in a record made by [newResource]. *)
Definition isNamespaced (r : resourceMeta) : bool :=
  if bool_decide (Name (Scope (mapping r)) = RESTScopeNameRoot)
  then false
  else true.

(** [func (r *resourceMeta) resource() string] *)
Definition resource (r : resourceMeta) : string :=
  Resource (mapping r).

(** What a [*resourceMeta] points to. *)
Definition deref (s : state) (r : ptr) : option resourceMeta :=
  heap s !! r.

(** ** What a construction computes

    [newResource] reads the cache only through [config], [scheme], [mapper]
    and [codecs]; [construct] is the record it builds and [constructCalls]
    the calls it makes on the way, both as functions of these inputs. *)

Definition buildClient (c : clientCache) (g : GroupVersionKind)
    (isUnstructured : bool) : result error Interface :=
  if isUnstructured
  then RESTUnstructuredClientForGVK g (config c)
  else RESTClientForGVK g (config c) (codecs c).

Definition construct (c : clientCache) (obj : Object) (isUnstructured : bool)
  : result error resourceMeta :=
  match GVKForObject obj (scheme c) with
  | Err err => Err err
  | Ok g0 =>
    let g := itemGVK obj g0 in
    match buildClient c g isUnstructured with
    | Err err => Err err
    | Ok client =>
      match RESTMappingOf (mapper c) (GroupKindOf g) (Version g) with
      | Err err => Err err
      | Ok mp => Ok (mkResourceMeta client g mp)
      end
    end
  end.

Definition clientCall (g : GroupVersionKind) (isUnstructured : bool) : event :=
  if isUnstructured
  then CallRESTUnstructuredClientForGVK g
  else CallRESTClientForGVK g.

Definition constructCalls (c : clientCache) (obj : Object)
    (isUnstructured : bool) : list event :=
  CallGVKForObject obj ::
  match GVKForObject obj (scheme c) with
  | Err _ => []
  | Ok g0 =>
    let g := itemGVK obj g0 in
    clientCall g isUnstructured ::
    match buildClient c g isUnstructured with
    | Err _ => []
    | Ok _ => [CallRESTMapping (GroupKindOf g) (Version g)]
    end
  end.

(** ** The two paths, side by side

    [getResourceByType] and [getUnstructuredResourceByGVK] have the same
    shape; a [path] names one of them, so that a property of both is stated
    once. *)
Inductive path : Type := ByType | ByGVK.

Definition mutexOfPath (p : path) : mutex :=
  match p with ByType => muByType | ByGVK => muByGVK end.

(** The [isUnstructured] argument a path passes to [newResource]. *)
Definition unstructuredPath (p : path) : bool :=
  match p with ByType => false | ByGVK => true end.

(** The entry of the table of the path under the key of the object. *)
Definition lookupBy (p : path) (obj : Object) (c : clientCache) : option ptr :=
  match p with
  | ByType => resourceByType c !! TypeOf obj
  | ByGVK => unstructuredResourceByGVK c !! ObjectGVK obj
  end.

Definition insertBy (p : path) (obj : Object) (r : ptr) (c : clientCache)
  : clientCache :=
  match p with
  | ByType => insertByType (TypeOf obj) r c
  | ByGVK => insertByGVK (ObjectGVK obj) r c
  end.

(** The two objects have the same key on the path. *)
Definition sameKey (p : path) (obj obj' : Object) : Prop :=
  match p with
  | ByType => TypeOf obj = TypeOf obj'
  | ByGVK => ObjectGVK obj = ObjectGVK obj'
  end.

Definition probeBy (p : path) : Object → M (option ptr) :=
  match p with ByType => probeByType | ByGVK => probeByGVK end.

Definition initBy (p : path) : Object → M (result error ptr) :=
  match p with ByType => initByType | ByGVK => initByGVK end.

Definition getBy (p : path) : Object → M (result error ptr) :=
  match p with
  | ByType => getResourceByType
  | ByGVK => getUnstructuredResourceByGVK
  end.

(** The path [getResource] takes for an object. *)
Definition pathOf (obj : Object) : path :=
  if isUnstructuredObj obj || isUnstructuredListObj obj then ByGVK else ByType.

(** The state after a probe: the read lock was taken and released. *)
Definition probed (m : mutex) (s : state) : state :=
  mkState (cache s) (heap s) (trace s ++ [RLock m; RUnlock m]).

(** The trace of a locked section that made the calls [calls]. *)
Definition locked (m : mutex) (calls : list event) : list event :=
  [Lock m] ++ calls ++ [Unlock m].

(** The calls to the type resolver and to the transport factory made so
    far. *)
Definition calls (s : state) : list event :=
  filter (λ e, isCall e = true) (trace s).

(** The state with one of the two tables replaced. *)
Definition withByType (t : gmap reflectType ptr) (s : state) : state :=
  let c := cache s in
  mkState (mkClientCache (config c) (scheme c) (mapper c) (codecs c)
             t (unstructuredResourceByGVK c))
          (heap s) (trace s).

Definition withByGVK (t : gmap GroupVersionKind ptr) (s : state) : state :=
  let c := cache s in
  mkState (mkClientCache (config c) (scheme c) (mapper c) (codecs c)
             (resourceByType c) t)
          (heap s) (trace s).

(** The events an operation added to the trace. *)
Definition newEvents (s s' : state) : list event :=
  drop (length (trace s)) (trace s').

(** ** Several callers at once

    The callers of one pool all run the lookup of the same path, each for an
    object of its own, and interleave at the granularity of the statements of
    the Go functions: taking and releasing the locks, reading the table,
    calling [newResource], writing the table.  A [sync.RWMutex] is the number
    of holders of its read lock and whether its write lock is held; [RLock]
    waits while a writer holds the lock, [Lock] while anyone does.  (Go also
    keeps new readers out while a writer waits, which only removes
    interleavings.) *)

Record rwmutex : Type := mkRW {
  readers : nat;
  writer : bool;
}.

(** Where a caller stands in [getResourceByType] or
    [getUnstructuredResourceByGVK], with the values of its local variables. *)
Inductive pc : Type :=
| AtRLock                               (* before [RLock] *)
| AtProbe                               (* before the read of the table *)
| AtRUnlock (known : option ptr)        (* before [RUnlock] *)
| AtLock                                (* before [Lock] *)
| AtNewResource                         (* before [c.newResource] *)
| AtStore (r : ptr)                     (* before the write of the table *)
| AtUnlock (res : result error ptr)     (* before the deferred [Unlock] *)
| Returned (res : result error ptr).

Record thread : Type := mkThread {
  thObj : Object;
  thPc : pc;
  thBuilt : nat;          (* how often the caller has run [newResource] *)
}.

Record pool : Type := mkPool {
  shared : state;
  mu : rwmutex;
  threads : list thread;
  stored : list ptr;      (* the pointers written to the table, latest first *)
}.

(** The caller holds the read lock. *)
Definition reading (c : pc) : bool :=
  match c with AtProbe | AtRUnlock _ => true | _ => false end.

(** The caller holds the write lock. *)
Definition writing (c : pc) : bool :=
  match c with AtNewResource | AtStore _ | AtUnlock _ => true | _ => false end.


(** The number of callers of the pool at a place that satisfies [f]. *)
Definition countAt (f : pc → bool) (ts : list thread) : nat :=
  length (filter (λ t, f (thPc t) = true) ts).

(** One statement of one caller; [None] when the caller waits for a lock or
    has returned.  The last component is the pointer written to the table, if
    the statement is the write. *)
Definition stepThread (p : path) (t : thread) (s : state) (l : rwmutex)
  : option (thread * state * rwmutex * option ptr) :=
  let m := mutexOfPath p in
  let obj := thObj t in
  let goto c := mkThread obj c (thBuilt t) in
  match thPc t with
  | AtRLock =>
    if writer l then None
    else Some (goto AtProbe, (emit (RLock m) s).2,
               mkRW (S (readers l)) (writer l), None)
  | AtProbe =>
    Some (goto (AtRUnlock (lookupBy p obj (cache s))), s, l, None)
  | AtRUnlock known =>
    Some (goto (match known with
                | Some r => Returned (Ok r)
                | None => AtLock
                end),
          (emit (RUnlock m) s).2, mkRW (pred (readers l)) (writer l), None)
  | AtLock =>
    if writer l || negb (readers l =? 0)%nat then None
    else Some (goto AtNewResource, (emit (Lock m) s).2,
               mkRW (readers l) true, None)
  | AtNewResource =>
    let (rr, s') := newResource obj (unstructuredPath p) s in
    Some (mkThread obj
            (match rr with
             | Ok r => AtStore r
             | Err err => AtUnlock (Err err)
             end)
            (S (thBuilt t)),
          s', l, None)
  | AtStore r =>
    Some (goto (AtUnlock (Ok r)),
          mkState (insertBy p obj r (cache s)) (heap s) (trace s), l, Some r)
  | AtUnlock res =>
    Some (goto (Returned res), (emit (Unlock m) s).2,
          mkRW (readers l) false, None)
  | Returned _ => None
  end.

(** Caller [i] runs its next statement. *)
Definition stepPool (p : path) (i : nat) (pl : pool) : option pool :=
  match threads pl !! i with
  | None => None
  | Some t =>
    match stepThread p t (shared pl) (mu pl) with
    | None => None
    | Some (t', s', l', w) =>
      Some (mkPool s' l' (<[i := t']> (threads pl))
                   (match w with Some r => r :: stored pl | None => stored pl end))
    end
  end.

(** A schedule names the caller to run next; a caller that cannot run is
    passed over.  Every interleaving is the run of some schedule. *)
Definition runPool (p : path) (sched : list nat) (pl : pool) : pool :=
  foldl (λ pl i, default pl (stepPool p i pl)) pl sched.

(** The callers as they enter the function, the locks free. *)
Definition spawn (s : state) (objs : list Object) : pool :=
  mkPool s (mkRW 0 false) (map (λ o, mkThread o AtRLock 0) objs) [].

(** What the caller [i] has returned, if it has. *)
Definition resultOf (pl : pool) (i : nat) : option (result error ptr) :=
  match threads pl !! i with
  | Some t => match thPc t with Returned res => Some res | _ => None end
  | None => None
  end.



Definition flag (b : bool) : nat := if b then 1 else 0.




(** *** Invariants of a pool *)

(** The mutex counts the callers in the read section and knows of the
    caller in the write section; the write section excludes the read
    section. *)
Definition lockInv (pl : pool) : Prop :=
  readers (mu pl) = countAt reading (threads pl) ∧
  flag (writer (mu pl)) = countAt writing (threads pl) ∧
  (writer (mu pl) = true → readers (mu pl) = 0).

(** The inputs of the resolver and of the factory are the same in both
    caches. *)
Definition sameWorld (c c' : clientCache) : Prop :=
  config c = config c' ∧ scheme c = scheme c' ∧
  mapper c = mapper c' ∧ codecs c = codecs c'.

(** The pointer a caller has in a local variable. *)
Definition held (c : pc) : option ptr :=
  match c with
  | AtRUnlock (Some r) | AtStore r | AtUnlock (Ok r) | Returned (Ok r) => Some r
  | _ => None
  end.


(** A pointer to a record allocated since the state [s0], in the heap of
    [sh]. *)
Definition fresh (s0 sh : state) (r : ptr) : Prop :=
  length (heap s0) ≤ r < length (heap sh).




(** ** Sequences of operations

    What a single caller can do to a cache over time: call one of the
    operations, or see the scheme, the mapper, the configuration and the
    codecs change outside the package. *)
Inductive op : Type :=
| OpGetResource (obj : Object)
| OpGetResourceByType (obj : Object)
| OpGetUnstructuredResourceByGVK (obj : Object)
| OpGetObjMeta (obj : Object)
| OpWorld (cfg : Config) (sch : Scheme) (m : RESTMapper) (cod : CodecFactory).

(** The cache with the inputs of the resolver and of the factory replaced;
    the tables are kept. *)
Definition withWorld (cfg : Config) (sch : Scheme) (m : RESTMapper)
    (cod : CodecFactory) (s : state) : state :=
  mkState (mkClientCache cfg sch m cod
             (resourceByType (cache s))
             (unstructuredResourceByGVK (cache s)))
          (heap s) (trace s).

Definition runOp (o : op) (s : state) : state :=
  match o with
  | OpGetResource obj => (getResource obj s).2
  | OpGetResourceByType obj => (getResourceByType obj s).2
  | OpGetUnstructuredResourceByGVK obj => (getUnstructuredResourceByGVK obj s).2
  | OpGetObjMeta obj => (getObjMeta obj s).2
  | OpWorld cfg sch m cod => withWorld cfg sch m cod s
  end.

Definition run (ops : list op) (s : state) : state :=
  foldl (λ s o, runOp o s) s ops.

(** Every pointer held by a table points into the heap. *)
Definition wellFormed (s : state) : Prop :=
  (∀ t r, resourceByType (cache s) !! t = Some r → r < length (heap s)) ∧
  (∀ k r, unstructuredResourceByGVK (cache s) !! k = Some r →
          r < length (heap s)).

(** No record is reachable through both tables. *)
Definition tablesDisjoint (s : state) : Prop :=
  ∀ t k r, resourceByType (cache s) !! t = Some r →
           unstructuredResourceByGVK (cache s) !! k ≠ Some r.

(** The properties of a pair of states that every operation establishes:
    the heap only grows at its end, and an entry of a table stays. *)
Record extends (s s' : state) : Prop := mkExtends {
  ext_heap : heap s `prefix_of` heap s';
  ext_byType : ∀ t r, resourceByType (cache s) !! t = Some r →
                      resourceByType (cache s') !! t = Some r;
  ext_byGVK : ∀ k r, unstructuredResourceByGVK (cache s) !! k = Some r →
                     unstructuredResourceByGVK (cache s') !! k = Some r;
}.

End ClientCache.

Arguments ret {P A} a s /.
Arguments bind {P A B} m k s /.

(** ** Further notions about the cache *)

Section ClientCacheProtocol.
Context `{P : Platform}.

#[global] Instance mutex_eq_dec : EqDecision mutex.
Proof. solve_decision. Defined.

(** *** The protocol of one caller

    What a caller holds: nothing, the read lock of a mutex, or its write
    lock together with the number of calls it has made under it.
    [protocolStep] accepts an event only where the protocol allows it: a lock
    is taken when nothing is held and released by its holder; under a write
    lock the calls come in the order type resolver, transport factory, REST
    mapper, each at most once, the factory being asked for a typed client
    under the mutex of the type table and for a schema-less one under the
    mutex of the GVK table; the write lock is released after at least one
    call. *)
Inductive lockState : Type :=
| Free
| ReadHeld (m : mutex)
| WriteHeld (m : mutex) (made : nat).

Definition protocolStep (st : lockState) (e : event) : option lockState :=
  match st, e with
  | Free, RLock m => Some (ReadHeld m)
  | Free, Lock m => Some (WriteHeld m 0)
  | ReadHeld m, RUnlock m' => if decide (m = m') then Some Free else None
  | WriteHeld m 0, CallGVKForObject _ => Some (WriteHeld m 1)
  | WriteHeld muByType 1, CallRESTClientForGVK _ => Some (WriteHeld muByType 2)
  | WriteHeld muByGVK 1, CallRESTUnstructuredClientForGVK _ =>
    Some (WriteHeld muByGVK 2)
  | WriteHeld m 2, CallRESTMapping _ _ => Some (WriteHeld m 3)
  | WriteHeld m (S _), Unlock m' => if decide (m = m') then Some Free else None
  | _, _ => None
  end.

Fixpoint runProtocol (st : lockState) (evs : list event) : option lockState :=
  match evs with
  | [] => Some st
  | e :: evs' =>
    match protocolStep st e with
    | Some st' => runProtocol st' evs'
    | None => None
    end
  end.

(** *** Slicing

    The Go expression [s[:hi]] on a string, with [hi] an [int]: it panics
    ([None]) unless [0 <= hi <= len(s)]. *)
Definition sliceTo (s : string) (hi : Z) : option string :=
  if decide (0 ≤ hi ≤ Z.of_nat (String.length s))%Z
  then Some (substring 0 (Z.to_nat hi) s)
  else None.

(** [len(s)] as an [int]. *)
Definition len (s : string) : Z := Z.of_nat (String.length s).

(** *** One entry per record

    In a cache used by one caller at a time every record of the heap is held
    by exactly one entry: no two keys of a table share a pointer, no pointer
    is in both tables, and there are as many entries as records. *)
Definition injectiveTable `{Countable K} (t : gmap K nat) : Prop :=
  ∀ k1 k2 r, t !! k1 = Some r → t !! k2 = Some r → k1 = k2.

Record oneEntryPerRecord (s : state) : Prop := mkOneEntry {
  oe_wf : wellFormed s;
  oe_disjoint : tablesDisjoint s;
  oe_byType : injectiveTable (resourceByType (cache s));
  oe_byGVK : injectiveTable (unstructuredResourceByGVK (cache s));
  oe_size : size (resourceByType (cache s))
            + size (unstructuredResourceByGVK (cache s))
            = length (heap s);
}.

(** *** Entries and constructions

    An entry is genuine in a world: it points to the record that the
    construction in that world yields for some object with the key of the
    entry, on the path of the table. *)
Definition genuine (c0 : clientCache) (s : state) : Prop :=
  ∀ p obj r, lookupBy p obj (cache s) = Some r →
    ∃ obj' m, sameKey p obj' obj ∧ deref s r = Some m ∧
              construct c0 obj' (unstructuredPath p) = Ok m.

(** The operations that leave the world as it is. *)
Definition keepsWorld (o : op) : bool :=
  match o with OpWorld _ _ _ _ => false | _ => true end.

#[global] Instance path_eq_dec : EqDecision path.
Proof. solve_decision. Defined.

(** *** Pools of callers for any objects *)

(** The caller stands at [Lock] or holds the write lock.  A caller at
    [Lock] may have called it and be waiting for the readers to leave, and
    from that call on Go's [sync.RWMutex] makes a new [RLock] wait, which
    [stepThread] does not: the pools have every interleaving of the program
    and some more.  Where no caller is on the write side, [RLock] goes
    through in Go as it does in [stepThread]. *)
Definition writeSide (c : pc) : bool :=
  match c with
  | AtLock | AtNewResource | AtStore _ | AtUnlock _ => true
  | _ => false
  end.

(** The pointer a caller has found in the table or has written to it. *)
Definition settled (c : pc) : option nat :=
  match c with
  | AtRUnlock (Some r) | AtUnlock (Ok r) | Returned (Ok r) => Some r
  | _ => None
  end.

(** No two of the objects have the same key on the path. *)
Definition distinctKeys (p : path) (objs : list Object) : Prop :=
  ∀ i j oi oj, objs !! i = Some oi → objs !! j = Some oj →
               sameKey p oi oj → i = j.

(** Every caller that has found or written a pointer finds it in the table
    under the key of its object. *)
Definition ownEntries (p : path) (pl : pool) : Prop :=
  ∀ i t r, threads pl !! i = Some t → settled (thPc t) = Some r →
           lookupBy p (thObj t) (cache (shared pl)) = Some r.

(** In a pool started in [s0] for the objects [objs]: every pointer in the
    table or in a local variable of a caller points into the heap, the heap
    extends the one of [s0], and every record added since was constructed
    for the object of a caller. *)
Record poolSafe (p : path) (s0 : state) (objs : list Object) (pl : pool)
  : Prop := mkPoolSafe {
  ps_objs : map thObj (threads pl) = objs;
  ps_wf : wellFormed (shared pl);
  ps_world : sameWorld (cache (shared pl)) (cache s0);
  ps_heap : heap s0 `prefix_of` heap (shared pl);
  ps_held : Forall (λ t, ∀ r, held (thPc t) = Some r →
                           r < length (heap (shared pl))) (threads pl);
  ps_made : ∀ r m, length (heap s0) ≤ r → heap (shared pl) !! r = Some m →
              ∃ o, o ∈ objs ∧
                   construct (cache s0) o (unstructuredPath p) = Ok m;
}.

End ClientCacheProtocol.

(** ** A stub platform

    Objects carry what the package observes of them; the scheme lists the
    registered concrete types, the mapper the known kinds; a client is a
    stub remembering how it was built. *)
Module Stub.

Record object : Type := mkObject {
  objType : reflectType;
  objGVK : GroupVersionKind;
  objIsList : bool;
  objName : option string;      (* the accessor, when the object has one *)
}.

Inductive stubError : Type :=
| TypeResolutionError
| TransportError
| MappingError
| AccessorError.

Inductive stubClient : Type :=
| TypedClient (g : GroupVersionKind)
| SchemalessClient (g : GroupVersionKind).

Definition stubScheme : Type := list (reflectType * GroupVersionKind).
Definition stubMapper : Type := list (string * string * RESTMapping).

Fixpoint lookupType (t : reflectType) (sch : stubScheme)
  : option GroupVersionKind :=
  match sch with
  | [] => None
  | (t', g) :: sch' => if bool_decide (t = t') then Some g else lookupType t sch'
  end.

Fixpoint lookupKind (k v : string) (m : stubMapper) : option RESTMapping :=
  match m with
  | [] => None
  | (k', v', r) :: m' =>
    if bool_decide (k = k') && bool_decide (v = v') then Some r
    else lookupKind k v m'
  end.

(** Schema-less objects have their declared kind, which must be set; the
    others the kind their type is registered with. *)
Definition stubGVKForObject (o : object) (sch : stubScheme)
  : result stubError GroupVersionKind :=
  match objType o with
  | PtrUnstructured | PtrUnstructuredList =>
    if bool_decide (Kind (objGVK o) = "") then Err TypeResolutionError
    else Ok (objGVK o)
  | t => match lookupType t sch with
         | Some g => Ok g
         | None => Err TypeResolutionError
         end
  end.

#[export] Instance platform : Platform := {|
  Object := object;
  Scheme := stubScheme;
  RESTMapper := stubMapper;
  Config := bool;                        (* is the configuration usable *)
  CodecFactory := unit;
  Interface := stubClient;
  V1Object := string;
  error := stubError;
  TypeOf := objType;
  ObjectGVK := objGVK;
  IsListType := objIsList;
  Accessor := λ o, match objName o with
                   | Some n => Ok n
                   | None => Err AccessorError
                   end;
  GVKForObject := stubGVKForObject;
  RESTUnstructuredClientForGVK := λ g cfg,
    if cfg then Ok (SchemalessClient g) else Err TransportError;
  RESTClientForGVK := λ g cfg _,
    if cfg then Ok (TypedClient g) else Err TransportError;
  RESTMappingOf := λ m gk v,
    match lookupKind (gkKind gk) v m with
    | Some r => Ok r
    | None => Err MappingError
    end;
  RESTScopeNameRoot := "root";
|}.

Definition widgetGVK : GroupVersionKind := mkGVK "apps" "v1" "Widget".
Definition widgetListGVK : GroupVersionKind := mkGVK "apps" "v1" "WidgetList".
Definition nodeGVK : GroupVersionKind := mkGVK "" "v1" "Node".

Definition widgets : RESTMapping := mkMapping "widgets" (mkScope "namespace").
Definition nodes : RESTMapping := mkMapping "nodes" (mkScope "root").

Definition theScheme : stubScheme :=
  [(PtrTo "Widget", widgetGVK); (PtrTo "WidgetList", widgetListGVK);
   (PtrTo "Node", nodeGVK)].
Definition theMapper : stubMapper :=
  [("Widget", "v1", widgets); ("Node", "v1", nodes)].

(** A cache with empty tables. *)
Definition emptyCache (cfg : bool) (sch : stubScheme) (m : stubMapper)
  : clientCache :=
  mkClientCache cfg sch m tt ∅ ∅.

Definition start : state := mkState (emptyCache true theScheme theMapper) [] [].

(** A typed widget, a typed list of widgets, a schema-less widget, a
    schema-less list of widgets, an object of an unregistered type and a
    node, whose kind is not namespaced. *)
Definition aWidget : object := mkObject (PtrTo "Widget") (mkGVK "" "" "") false (Some "w1").
Definition aWidgetList : object := mkObject (PtrTo "WidgetList") (mkGVK "" "" "") true None.
Definition uWidget : object := mkObject PtrUnstructured widgetGVK false (Some "w2").
Definition uWidgetList : object := mkObject PtrUnstructuredList widgetListGVK true None.
Definition aGadget : object := mkObject (PtrTo "Gadget") (mkGVK "" "" "") false (Some "g1").
Definition aNode : object := mkObject (PtrTo "Node") (mkGVK "" "" "") false (Some "n1").


(** A kind of its own whose name ends in "List", next to the kind "Allow":
    a schema-less list of allows and a single schema-less allow-list declare
    the same GVK. *)
Definition allowGVK : GroupVersionKind := mkGVK "acl" "v1" "Allow".
Definition allowListGVK : GroupVersionKind := mkGVK "acl" "v1" "AllowList".
Definition allows : RESTMapping := mkMapping "allows" (mkScope "namespace").
Definition allowlists : RESTMapping :=
  mkMapping "allowlists" (mkScope "namespace").
Definition aclMapper : stubMapper :=
  [("Allow", "v1", allows); ("AllowList", "v1", allowlists)].
Definition aclStart : state := mkState (emptyCache true [] aclMapper) [] [].
Definition listOfAllows : object :=
  mkObject PtrUnstructuredList allowListGVK true None.
Definition anAllowList : object :=
  mkObject PtrUnstructured allowListGVK false (Some "office").

End Stub.

(** * Properties *)

Section Properties.
Context `{P : Platform}.

Implicit Types (obj : Object) (s : state) (c : clientCache).

(** ** Strings *)

Lemma append_cons (a : ascii) (s t : string) :
  String a s +:+ t = String a (s +:+ t).
Proof. reflexivity. Qed.

Lemma append_nil (t : string) : "" +:+ t = t.
Proof. reflexivity. Qed.

Lemma substring_all (s : string) : substring 0 (String.length s) s = s.
Proof. induction s as [|a s IH]; simpl; [done | by rewrite IH]. Qed.

Lemma substring_split (n : nat) (s : string) :
  (n ≤ String.length s)%nat →
  s = substring 0 n s +:+ substring n (String.length s - n) s.
Proof.
  revert n. induction s as [|a s IH]; intros [|n] Hn; simpl in *.
  - done.
  - lia.
  - by rewrite substring_all.
  - rewrite append_cons. f_equal. apply IH. lia.
Qed.

(** Under the guard of [newResource] the slice takes the suffix off. *)
Lemma HasSuffix_dropLast (s suffix : string) :
  HasSuffix s suffix = true →
  s = dropLast (String.length suffix) s +:+ suffix.
Proof.
  unfold HasSuffix, dropLast. intros [Hlen Heq%bool_decide_eq_true]%andb_true_iff.
  apply Nat.leb_le in Hlen.
  pose proof (substring_split (String.length s - String.length suffix) s
                ltac:(lia)) as Hsplit.
  replace (String.length s - (String.length s - String.length suffix))
    with (String.length suffix) in Hsplit by lia.
  by rewrite Heq in Hsplit.
Qed.

Lemma length_append (s t : string) :
  String.length (s +:+ t) = String.length s + String.length t.
Proof.
  induction s as [|a s IH]; [done|].
  rewrite append_cons. simpl. by rewrite IH.
Qed.

Lemma substring_append_r (s t : string) :
  substring (String.length s) (String.length t) (s +:+ t) = t.
Proof.
  induction s as [|a s IH]; [apply substring_all|].
  rewrite append_cons. simpl. done.
Qed.

Lemma substring_append_l (s t : string) :
  substring 0 (String.length s) (s +:+ t) = s.
Proof.
  induction s as [|a s IH]; [rewrite append_nil; by destruct t|].
  rewrite append_cons. simpl. by rewrite IH.
Qed.

Lemma HasSuffix_append (s suffix : string) : HasSuffix (s +:+ suffix) suffix = true.
Proof.
  unfold HasSuffix. rewrite length_append. apply andb_true_iff. split.
  - apply Nat.leb_le. lia.
  - apply bool_decide_eq_true.
    replace (String.length s + String.length suffix - String.length suffix)
      with (String.length s) by lia.
    apply substring_append_r.
Qed.

Lemma dropLast_append (s suffix : string) :
  dropLast (String.length suffix) (s +:+ suffix) = s.
Proof.
  unfold dropLast. rewrite length_append.
  replace (String.length s + String.length suffix - String.length suffix)
    with (String.length s) by lia.
  apply substring_append_l.
Qed.

(** ** The equations of the operations *)

Lemma newResource_eq obj (isU : bool) s :
  newResource obj isU s =
  match construct (cache s) obj isU with
  | Ok r => (Ok (length (heap s)),
             mkState (cache s) (heap s ++ [r])
                     (trace s ++ constructCalls (cache s) obj isU))
  | Err err => (Err err,
                mkState (cache s) (heap s)
                        (trace s ++ constructCalls (cache s) obj isU))
  end.
Proof.
  unfold newResource, construct, constructCalls, buildClient, clientCall.
  unfold callGVKForObject, callRESTMapping, callRESTUnstructuredClientForGVK,
    callRESTClientForGVK, mbind, M_bind, getCache, emit, alloc; simpl.
  destruct (GVKForObject obj _) as [g0|e]; simpl; [|done].
  destruct isU; simpl.
  - destruct (RESTUnstructuredClientForGVK _ _) as [cl|e]; simpl;
      [|by rewrite <- app_assoc].
    destruct (RESTMappingOf _ _ _) as [mp|e]; simpl;
      by rewrite <- !app_assoc.
  - destruct (RESTClientForGVK _ _ _) as [cl|e]; simpl;
      [|by rewrite <- app_assoc].
    destruct (RESTMappingOf _ _ _) as [mp|e]; simpl;
      by rewrite <- !app_assoc.
Qed.

Lemma probeByType_eq obj s :
  probeByType obj s =
  (resourceByType (cache s) !! TypeOf obj,
   mkState (cache s) (heap s) (trace s ++ [RLock muByType; RUnlock muByType])).
Proof.
  unfold probeByType, mbind, M_bind, getCache, emit; simpl.
  by rewrite <- app_assoc.
Qed.

Lemma probeByGVK_eq obj s :
  probeByGVK obj s =
  (unstructuredResourceByGVK (cache s) !! ObjectGVK obj,
   mkState (cache s) (heap s) (trace s ++ [RLock muByGVK; RUnlock muByGVK])).
Proof.
  unfold probeByGVK, mbind, M_bind, getCache, emit; simpl.
  by rewrite <- app_assoc.
Qed.

Lemma initByType_eq obj s :
  initByType obj s =
  let tr := trace s ++ [Lock muByType] ++ constructCalls (cache s) obj false
                    ++ [Unlock muByType] in
  match construct (cache s) obj false with
  | Ok r => (Ok (length (heap s)),
             mkState (insertByType (TypeOf obj) (length (heap s)) (cache s))
                     (heap s ++ [r]) tr)
  | Err err => (Err err, mkState (cache s) (heap s) tr)
  end.
Proof.
  unfold initByType, mbind, M_bind. simpl.
  rewrite newResource_eq. simpl.
  destruct (construct _ _ _) as [r|e]; simpl;
    unfold mbind, M_bind, emit, storeByType; simpl;
    by rewrite <- !app_assoc.
Qed.

Lemma initByGVK_eq obj s :
  initByGVK obj s =
  let tr := trace s ++ [Lock muByGVK] ++ constructCalls (cache s) obj true
                    ++ [Unlock muByGVK] in
  match construct (cache s) obj true with
  | Ok r => (Ok (length (heap s)),
             mkState (insertByGVK (ObjectGVK obj) (length (heap s)) (cache s))
                     (heap s ++ [r]) tr)
  | Err err => (Err err, mkState (cache s) (heap s) tr)
  end.
Proof.
  unfold initByGVK, mbind, M_bind. simpl.
  rewrite newResource_eq. simpl.
  destruct (construct _ _ _) as [r|e]; simpl;
    unfold mbind, M_bind, emit, storeByGVK; simpl;
    by rewrite <- !app_assoc.
Qed.

Lemma getResourceByType_eq obj s :
  getResourceByType obj s =
  let s' := (probeByType obj s).2 in
  match resourceByType (cache s) !! TypeOf obj with
  | Some r => (Ok r, s')
  | None => initByType obj s'
  end.
Proof.
  unfold getResourceByType, mbind, M_bind, bind.
  rewrite probeByType_eq. simpl. by destruct (_ !! _).
Qed.

Lemma getUnstructuredResourceByGVK_eq obj s :
  getUnstructuredResourceByGVK obj s =
  let s' := (probeByGVK obj s).2 in
  match unstructuredResourceByGVK (cache s) !! ObjectGVK obj with
  | Some r => (Ok r, s')
  | None => initByGVK obj s'
  end.
Proof.
  unfold getUnstructuredResourceByGVK, mbind, M_bind, bind.
  rewrite probeByGVK_eq. simpl. by destruct (_ !! _).
Qed.

Lemma getResource_eq obj s :
  getResource obj s =
  if isUnstructuredObj obj || isUnstructuredListObj obj
  then getUnstructuredResourceByGVK obj s
  else getResourceByType obj s.
Proof. unfold getResource. by destruct (_ || _). Qed.

Lemma getObjMeta_eq obj s :
  getObjMeta obj s =
  (match (getResource obj s).1 with
   | Err err => Err err
   | Ok r => match Accessor obj with
             | Err err => Err err
             | Ok m => Ok (mkObjMeta r m)
             end
   end,
   (getResource obj s).2).
Proof.
  unfold getObjMeta, mbind, M_bind, bind.
  destruct (getResource obj s) as [[r|e] s']; simpl; [|done].
  by destruct (Accessor obj).
Qed.

(** Case analysis on a call of one of the two lookups: hit, failed
    construction, successful construction. *)
Ltac cases_byType obj s :=
  rewrite (getResourceByType_eq obj s), (probeByType_eq obj s); simpl;
  let Hl := fresh "Hlook" in
  let Hc := fresh "Hcons" in
  destruct (resourceByType (cache s) !! TypeOf obj) eqn:Hl;
  [| rewrite initByType_eq; simpl;
     destruct (construct (cache s) obj false) eqn:Hc]; simpl.

Ltac cases_byGVK obj s :=
  rewrite (getUnstructuredResourceByGVK_eq obj s), (probeByGVK_eq obj s); simpl;
  let Hl := fresh "Hlook" in
  let Hc := fresh "Hcons" in
  destruct (unstructuredResourceByGVK (cache s) !! ObjectGVK obj) eqn:Hl;
  [| rewrite initByGVK_eq; simpl;
     destruct (construct (cache s) obj true) eqn:Hc]; simpl.

(** ** What an operation preserves *)

Lemma extends_refl s : extends s s.
Proof. by split. Qed.

Lemma extends_trans s1 s2 s3 : extends s1 s2 → extends s2 s3 → extends s1 s3.
Proof.
  intros [H1 H2 H3] [H1' H2' H3']. split; [by etrans | eauto | eauto].
Qed.

Lemma getResourceByType_extends obj s : extends s (getResourceByType obj s).2.
Proof.
  cases_byType obj s; split; simpl; try done.
  - by apply prefix_app_r.
  - intros t r Ht. rewrite lookup_insert_ne; [done | congruence].
Qed.

Lemma getUnstructuredResourceByGVK_extends obj s :
  extends s (getUnstructuredResourceByGVK obj s).2.
Proof.
  cases_byGVK obj s; split; simpl; try done.
  - by apply prefix_app_r.
  - intros k r Hk. rewrite lookup_insert_ne; [done | congruence].
Qed.

Lemma getResource_extends obj s : extends s (getResource obj s).2.
Proof.
  rewrite getResource_eq. destruct (_ || _);
    [apply getUnstructuredResourceByGVK_extends | apply getResourceByType_extends].
Qed.

Lemma runOp_extends (o : op) s : extends s (runOp o s).
Proof.
  destruct o; simpl.
  - apply getResource_extends.
  - apply getResourceByType_extends.
  - apply getUnstructuredResourceByGVK_extends.
  - rewrite getObjMeta_eq. apply getResource_extends.
  - by split.
Qed.

Lemma run_extends (ops : list op) s : extends s (run ops s).
Proof.
  revert s. induction ops as [|o ops IH]; intros s; simpl.
  - apply extends_refl.
  - eapply extends_trans; [apply runOp_extends | apply IH].
Qed.

Lemma extends_deref s s' (r : nat) (m : resourceMeta) :
  extends s s' → deref s r = Some m → deref s' r = Some m.
Proof.
  intros [Hpre _ _]. unfold deref. intros Hr.
  by eapply prefix_lookup_Some.
Qed.

(** ** The two paths at once *)

Lemma probeBy_eq (p : path) obj s :
  probeBy p obj s = (lookupBy p obj (cache s), probed (mutexOfPath p) s).
Proof. destruct p; [apply probeByType_eq | apply probeByGVK_eq]. Qed.

Lemma initBy_eq (p : path) obj s :
  initBy p obj s =
  let tr := trace s ++ locked (mutexOfPath p)
                         (constructCalls (cache s) obj (unstructuredPath p)) in
  match construct (cache s) obj (unstructuredPath p) with
  | Ok m => (Ok (length (heap s)),
             mkState (insertBy p obj (length (heap s)) (cache s))
                     (heap s ++ [m]) tr)
  | Err err => (Err err, mkState (cache s) (heap s) tr)
  end.
Proof. destruct p; [apply initByType_eq | apply initByGVK_eq]. Qed.

Lemma getBy_eq (p : path) obj s :
  getBy p obj s =
  match lookupBy p obj (cache s) with
  | Some r => (Ok r, probed (mutexOfPath p) s)
  | None => initBy p obj (probed (mutexOfPath p) s)
  end.
Proof.
  destruct p; simpl.
  - by rewrite getResourceByType_eq, probeByType_eq.
  - by rewrite getUnstructuredResourceByGVK_eq, probeByGVK_eq.
Qed.

Lemma getResource_pathOf obj : getResource obj = getBy (pathOf obj) obj.
Proof. unfold getResource, pathOf. by destruct (_ || _). Qed.

Lemma lookupBy_insertBy (p : path) obj (r : nat) c :
  lookupBy p obj (insertBy p obj r c) = Some r.
Proof. destruct p; simpl; apply lookup_insert_eq. Qed.

Lemma lookupBy_sameKey (p : path) obj obj' c :
  sameKey p obj obj' → lookupBy p obj' c = lookupBy p obj c.
Proof. destruct p; simpl; by intros ->. Qed.

Lemma getBy_extends (p : path) obj s : extends s (getBy p obj s).2.
Proof.
  destruct p;
    [apply getResourceByType_extends | apply getUnstructuredResourceByGVK_extends].
Qed.

Lemma extends_lookupBy (p : path) obj s s' (r : nat) :
  extends s s' → lookupBy p obj (cache s) = Some r →
  lookupBy p obj (cache s') = Some r.
Proof. intros [_ H1 H2]. destruct p; simpl; eauto. Qed.

(** A successful resolution leaves its result in the table. *)
Lemma getBy_Ok_lookup (p : path) obj s (r : nat) s' :
  getBy p obj s = (Ok r, s') → lookupBy p obj (cache s') = Some r.
Proof.
  rewrite getBy_eq. destruct (lookupBy p obj (cache s)) as [r0|] eqn:Hl.
  - intros [= <- <-]. done.
  - rewrite initBy_eq. simpl.
    destruct (construct _ _ _); intros [= <- <-]; simpl.
    apply lookupBy_insertBy.
Qed.

Lemma wellFormed_lookupBy (p : path) obj s (r : nat) :
  wellFormed s → lookupBy p obj (cache s) = Some r →
  ∃ m, deref s r = Some m.
Proof.
  intros [H1 H2] Hl. apply lookup_lt_is_Some.
  destruct p; simpl in Hl; eauto.
Qed.

Lemma calls_probed (m : mutex) s : calls (probed m s) = calls s.
Proof.
  unfold calls, probed; simpl. rewrite filter_app. simpl.
  rewrite !filter_cons_False by (simpl; congruence).
  by rewrite filter_nil, app_nil_r.
Qed.

(** ** Hits *)

(** C1: when the key of an object is in the table of its path (it was
    there, or an earlier resolution of the object put it there), the lookup
    returns the pointer the table holds: the cache and the heap are the same
    afterwards, so nothing was constructed, and the trace gained the read
    lock and its release only, so neither the type resolver nor the
    transport factory was called.  From then on, whatever is done to the
    cache, every resolution of an object with this key returns this pointer,
    and the record it points to is the same one: same resource name, same
    scope, same GVK. *)
Theorem cached_record_is_returned (p : path) obj s (r : nat) :
  lookupBy p obj (cache s) = Some r ∨ (∃ s0, getBy p obj s0 = (Ok r, s)) →
  getBy p obj s = (Ok r, probed (mutexOfPath p) s) ∧
  calls (getBy p obj s).2 = calls s ∧
  (wellFormed s → is_Some (deref s r)) ∧
  ∀ (ops : list op) obj', sameKey p obj obj' →
    let s' := run ops s in
    let s'' := (getBy p obj' s').2 in
    getBy p obj' s' = (Ok r, probed (mutexOfPath p) s') ∧
    calls s'' = calls s' ∧
    ∀ m, deref s r = Some m →
      deref s'' r = Some m ∧
      resource <$> deref s'' r = Some (resource m) ∧
      isNamespaced <$> deref s'' r = Some (isNamespaced m) ∧
      gvk <$> deref s'' r = Some (gvk m).
Proof.
  intros Hin.
  assert (lookupBy p obj (cache s) = Some r) as Hl.
  { destruct Hin as [?|[s0 H0]]; [done | by eapply getBy_Ok_lookup]. }
  assert (∀ s1 obj', sameKey p obj obj' → extends s s1 →
            getBy p obj' s1 = (Ok r, probed (mutexOfPath p) s1)) as Hhit.
  { intros s1 obj' Hk Hext. rewrite getBy_eq.
    rewrite (lookupBy_sameKey p obj obj') by done.
    by rewrite (extends_lookupBy p obj s s1 r). }
  assert (sameKey p obj obj) as Hrefl by (by destruct p).
  rewrite (Hhit s obj Hrefl (extends_refl s)).
  split; [done|]. split; [apply calls_probed|].
  split. { intros Hwf. by eapply wellFormed_lookupBy. }
  intros ops obj' Hk. cbv zeta.
  pose proof (run_extends ops s) as Hext.
  set (s' := run ops s) in *.
  rewrite (Hhit s' obj' Hk Hext). cbn [snd].
  split; [done|]. split; [apply calls_probed|].
  intros m Hm.
  pose proof (extends_deref s s' r m Hext Hm) as Hm'.
  assert (deref (probed (mutexOfPath p) s') r = Some m) as Hm'' by done.
  by rewrite Hm''.
Qed.

(** ** Misses *)

Lemma construct_Err_cases c obj (isU : bool) (e : error) :
  construct c obj isU = Err e ↔
  GVKForObject obj (scheme c) = Err e ∨
  (∃ g0, GVKForObject obj (scheme c) = Ok g0 ∧
         buildClient c (itemGVK obj g0) isU = Err e) ∨
  (∃ g0 client, GVKForObject obj (scheme c) = Ok g0 ∧
         buildClient c (itemGVK obj g0) isU = Ok client ∧
         RESTMappingOf (mapper c) (GroupKindOf (itemGVK obj g0))
                       (Version (itemGVK obj g0)) = Err e).
Proof.
  unfold construct.
  destruct (GVKForObject obj (scheme c)) as [g0|e0] eqn:Hg; simpl.
  2: { split; [intros [= ->]; by left|].
       intros [?|[(?&?&?)|(?&?&?&?&?)]]; congruence. }
  destruct (buildClient c (itemGVK obj g0) isU) as [cl|e1] eqn:Hc; simpl.
  2: { split; [intros [= ->]; right; left; by exists g0|].
       intros [?|[(?&?&?)|(?&?&?&?&?)]]; congruence. }
  destruct (RESTMappingOf _ _ _) as [mp|e2] eqn:Hm; simpl.
  - split; [done|]. intros [?|[(?&?&?)|(?&?&?&?&?)]]; congruence.
  - split; [intros [= ->]; right; right; by exists g0, cl|].
    intros [?|[(?&?&?)|(?&?&?&?&?)]]; congruence.
Qed.

Lemma construct_Ok_cases c obj (isU : bool) (m : resourceMeta) :
  construct c obj isU = Ok m ↔
  ∃ g0, GVKForObject obj (scheme c) = Ok g0 ∧
        gvk m = itemGVK obj g0 ∧
        buildClient c (gvk m) isU = Ok (restInterface m) ∧
        RESTMappingOf (mapper c) (GroupKindOf (gvk m)) (Version (gvk m))
          = Ok (mapping m).
Proof.
  unfold construct.
  destruct (GVKForObject obj (scheme c)) as [g0|e0] eqn:Hg; simpl.
  2: { split; [done|]. by intros (g & ? & _). }
  destruct (buildClient c (itemGVK obj g0) isU) as [cl|e1] eqn:Hc; simpl.
  2: { split; [done|]. intros (g & [= <-] & Hk & Hcl & Hmp). congruence. }
  destruct (RESTMappingOf _ _ _) as [mp|e2] eqn:Hm; simpl.
  - split.
    + intros [= <-]. by exists g0.
    + intros (g & [= <-] & Hk & Hcl & Hmp). destruct m as [cl' g' mp'].
      simpl in *. subst g'. congruence.
  - split; [done|]. intros (g & [= <-] & Hk & Hcl & Hmp). congruence.
Qed.

(** C2: when the key of an object is not in the table of its path, the
    lookup takes the write lock and constructs a record with [newResource];
    when that succeeds the record is stored at a fresh address, the address
    is inserted under the key and is what the caller gets.  The insert is
    unconditional: the locked section does not read the table, so it
    inserts its record in every state in which it runs, also one in which
    the key has been given an entry since the probe. *)
Theorem miss_constructs_and_inserts (p : path) obj s (m : resourceMeta) :
  lookupBy p obj (cache s) = None →
  construct (cache s) obj (unstructuredPath p) = Ok m →
  let mu := mutexOfPath p in
  let r := length (heap s) in
  let cs := constructCalls (cache s) obj (unstructuredPath p) in
  getBy p obj s = initBy p obj (probed mu s) ∧
  newResource obj (unstructuredPath p) s =
    (Ok r, mkState (cache s) (heap s ++ [m]) (trace s ++ cs)) ∧
  getBy p obj s =
    (Ok r, mkState (insertBy p obj r (cache s)) (heap s ++ [m])
                   (trace s ++ [RLock mu; RUnlock mu] ++ locked mu cs)) ∧
  lookupBy p obj (cache (getBy p obj s).2) = Some r ∧
  deref (getBy p obj s).2 r = Some m ∧
  ∀ s1, construct (cache s1) obj (unstructuredPath p) = Ok m →
    initBy p obj s1 =
      (Ok (length (heap s1)),
       mkState (insertBy p obj (length (heap s1)) (cache s1)) (heap s1 ++ [m])
               (trace s1 ++ locked (mutexOfPath p)
                  (constructCalls (cache s1) obj (unstructuredPath p)))).
Proof.
  intros Hmiss Hcons mu r cs.
  assert (getBy p obj s =
    (Ok r, mkState (insertBy p obj r (cache s)) (heap s ++ [m])
                   (trace s ++ [RLock mu; RUnlock mu] ++ locked mu cs))) as Hget.
  { rewrite getBy_eq, Hmiss, initBy_eq. simpl. rewrite Hcons.
    by rewrite <- app_assoc. }
  split; [by rewrite getBy_eq, Hmiss|].
  split; [by rewrite newResource_eq, Hcons|].
  split; [done|]. rewrite Hget. cbn [snd cache].
  split; [apply lookupBy_insertBy|].
  split.
  { unfold deref; simpl. by rewrite lookup_app_r, Nat.sub_diag. }
  intros s1 Hs1. rewrite initBy_eq. cbv zeta. by rewrite Hs1.
Qed.

(** C3: when the construction of a record fails, at the derivation of the
    GVK, at the construction of the client or at the lookup of the REST
    mapping, the lookup returns that error and the cache and the heap are
    what they were: no table has a new entry.  The next lookup of the key
    misses again and constructs again, making the calls anew: it fails the
    same way when nothing has changed, and it succeeds, and inserts, as soon
    as the inputs of the resolver and of the factory let the construction
    succeed. *)
Theorem failed_construction_is_not_cached (p : path) obj s (e : error) :
  lookupBy p obj (cache s) = None →
  (GVKForObject obj (scheme (cache s)) = Err e ∨
   (∃ g0, GVKForObject obj (scheme (cache s)) = Ok g0 ∧
          buildClient (cache s) (itemGVK obj g0) (unstructuredPath p) = Err e) ∨
   (∃ g0 client, GVKForObject obj (scheme (cache s)) = Ok g0 ∧
          buildClient (cache s) (itemGVK obj g0) (unstructuredPath p)
            = Ok client ∧
          RESTMappingOf (mapper (cache s)) (GroupKindOf (itemGVK obj g0))
                        (Version (itemGVK obj g0)) = Err e)) →
  let mu := mutexOfPath p in
  let isU := unstructuredPath p in
  ∃ s', getBy p obj s = (Err e, s') ∧
        cache s' = cache s ∧ heap s' = heap s ∧
        lookupBy p obj (cache s') = None ∧
        trace s' = trace s ++ [RLock mu; RUnlock mu]
                     ++ locked mu (constructCalls (cache s) obj isU) ∧
        getBy p obj s' =
          (Err e, mkState (cache s) (heap s)
                    (trace s' ++ [RLock mu; RUnlock mu]
                       ++ locked mu (constructCalls (cache s) obj isU))) ∧
        ∀ cfg sch mp cod (m : resourceMeta),
          let s1 := withWorld cfg sch mp cod s' in
          construct (cache s1) obj isU = Ok m →
          getBy p obj s1 =
            (Ok (length (heap s)),
             mkState (insertBy p obj (length (heap s)) (cache s1))
                     (heap s ++ [m])
                     (trace s' ++ [RLock mu; RUnlock mu]
                        ++ locked mu (constructCalls (cache s1) obj isU))).
Proof.
  intros Hmiss Hfail%construct_Err_cases mu isU.
  assert (∀ s0, cache s0 = cache s → heap s0 = heap s →
    getBy p obj s0 =
      (Err e, mkState (cache s) (heap s)
                (trace s0 ++ [RLock mu; RUnlock mu]
                   ++ locked mu (constructCalls (cache s) obj isU)))) as Hget.
  { intros s0 Hc Hh. rewrite getBy_eq, Hc, Hmiss, initBy_eq. simpl.
    rewrite Hc, Hh, Hfail. by rewrite <- app_assoc. }
  eexists. split; [by apply Hget|]. simpl.
  split; [done|]. split; [done|]. split; [done|]. split; [done|].
  split; [by rewrite Hget|].
  intros cfg sch mp cod m. cbv zeta. intros Hcons.
  rewrite getBy_eq.
  match goal with |- context [lookupBy p obj ?c] =>
    assert (lookupBy p obj c = None) as -> by (destruct p; simpl in *; done)
  end.
  rewrite initBy_eq. cbv zeta. subst mu isU. simpl in Hcons |- *.
  rewrite Hcons. by rewrite <- app_assoc.
Qed.

(** ** Dispatch *)

Lemma getBy_trace (p : path) obj s :
  ∃ tl, trace (getBy p obj s).2 = trace s ++ RLock (mutexOfPath p) :: tl.
Proof.
  rewrite getBy_eq. destruct (lookupBy p obj (cache s)).
  - by eexists.
  - rewrite initBy_eq. cbv zeta.
    destruct (construct _ _ _); simpl; rewrite <- app_assoc; by eexists.
Qed.

Lemma pathOf_ByGVK obj :
  pathOf obj = ByGVK ↔
  TypeOf obj = PtrUnstructured ∨ TypeOf obj = PtrUnstructuredList.
Proof.
  unfold pathOf, isUnstructuredObj, isUnstructuredListObj.
  destruct (TypeOf obj); simpl; split; intros H; try done;
    try (by left); try (by right); by destruct H.
Qed.

Lemma pathOf_ByType obj :
  pathOf obj = ByType ↔
  ¬ (TypeOf obj = PtrUnstructured ∨ TypeOf obj = PtrUnstructuredList).
Proof.
  rewrite <- pathOf_ByGVK. destruct (pathOf obj); naive_solver.
Qed.

(** C4: [getResource] takes the GVK path exactly for the objects of
    concrete type [*unstructured.Unstructured] or
    [*unstructured.UnstructuredList], and the type path for all others.
    Which path was taken shows in the trace: the first thing a path does is
    to take the read lock of its own table.  On the type path the key is the
    concrete type of the object, on the GVK path the GVK it declares. *)
Theorem getResource_dispatches_on_type obj s :
  let schemaless :=
    TypeOf obj = PtrUnstructured ∨ TypeOf obj = PtrUnstructuredList in
  getResource obj s =
    (if decide schemaless
     then getUnstructuredResourceByGVK obj s
     else getResourceByType obj s) ∧
  (schemaless ↔
   ∃ tl, trace (getResource obj s).2 = trace s ++ RLock muByGVK :: tl) ∧
  (¬ schemaless ↔
   ∃ tl, trace (getResource obj s).2 = trace s ++ RLock muByType :: tl) ∧
  (¬ schemaless →
   (getResource obj s).1 =
     match resourceByType (cache s) !! TypeOf obj with
     | Some r => Ok r
     | None => (initByType obj (probed muByType s)).1
     end) ∧
  (schemaless →
   (getResource obj s).1 =
     match unstructuredResourceByGVK (cache s) !! ObjectGVK obj with
     | Some r => Ok r
     | None => (initByGVK obj (probed muByGVK s)).1
     end).
Proof.
  intros schemaless.
  pose proof (pathOf_ByGVK obj) as HG. pose proof (pathOf_ByType obj) as HT.
  fold schemaless in HG, HT.
  pose proof (getBy_trace (pathOf obj) obj s) as [tl Htl].
  rewrite <- getResource_pathOf in Htl.
  assert (∀ (m m' : mutex) tl',
            trace (getResource obj s).2 = trace s ++ RLock m' :: tl' →
            m' = mutexOfPath (pathOf obj)) as Huniq.
  { intros m m' tl' H'. rewrite Htl in H'.
    apply app_inv_head in H'. congruence. }
  split; [|split; [|split; [|split]]].
  - rewrite getResource_pathOf.
    destruct (decide schemaless) as [Hs|Hs].
    + apply HG in Hs. by rewrite Hs.
    + apply HT in Hs. by rewrite Hs.
  - split.
    + intros Hs%HG. rewrite Hs in Htl. by exists tl.
    + intros [tl' H']. apply (Huniq muByGVK) in H'. apply HG.
      by destruct (pathOf obj).
  - split.
    + intros Hs%HT. rewrite Hs in Htl. by exists tl.
    + intros [tl' H']. apply (Huniq muByType) in H'. apply HT.
      by destruct (pathOf obj).
  - intros Hs%HT. rewrite getResource_pathOf, Hs. simpl.
    rewrite getResourceByType_eq, probeByType_eq. simpl.
    by destruct (_ !! _).
  - intros Hs%HG. rewrite getResource_pathOf, Hs. simpl.
    rewrite getUnstructuredResourceByGVK_eq, probeByGVK_eq. simpl.
    by destruct (_ !! _).
Qed.

(** ** List kinds *)

Lemma itemGVK_list obj (g : GroupVersionKind) :
  HasSuffix (Kind g) "List" = true → IsListType obj = true →
  itemGVK obj g = setKind g (dropLast 4 (Kind g)) ∧
  Kind g = Kind (itemGVK obj g) +:+ "List".
Proof.
  intros Hs Hl. unfold itemGVK. rewrite Hs, Hl. simpl.
  split; [done|]. by apply (HasSuffix_dropLast _ "List").
Qed.

Lemma itemGVK_other obj (g : GroupVersionKind) :
  HasSuffix (Kind g) "List" = false ∨ IsListType obj = false →
  itemGVK obj g = g.
Proof.
  unfold itemGVK. intros [-> | ->]; [done|]. by rewrite andb_false_r.
Qed.

Lemma itemGVK_group_version obj (g : GroupVersionKind) :
  Group (itemGVK obj g) = Group g ∧ Version (itemGVK obj g) = Version g.
Proof. unfold itemGVK. by destruct (_ && _). Qed.

Lemma newResource_Ok obj (isU : bool) s (r : nat) s' :
  newResource obj isU s = (Ok r, s') →
  ∃ m, construct (cache s) obj isU = Ok m ∧ r = length (heap s) ∧
       deref s' r = Some m ∧ cache s' = cache s ∧ heap s' = heap s ++ [m].
Proof.
  rewrite newResource_eq. destruct (construct _ _ _) as [m|e]; [|done].
  intros [= <- <-]. exists m. repeat split.
  unfold deref; simpl. by rewrite lookup_app_r, Nat.sub_diag.
Qed.

(** C5: the record [newResource] constructs carries the kind of the items
    when the kind derived for the object ends in "List" and the object is a
    list container: the four bytes of the suffix are cut off, and the client
    and the REST mapping are those of the item kind; a list container of kind
    "WidgetList" gets the record of kind "Widget".  When the kind does not end
    in "List", or the object is no list container, the record carries the
    derived kind as it is. *)
Theorem list_kind_resolves_to_item_kind obj (isU : bool) s (r : nat) s' :
  newResource obj isU s = (Ok r, s') →
  ∃ g0 m,
    GVKForObject obj (scheme (cache s)) = Ok g0 ∧
    deref s' r = Some m ∧
    Group (gvk m) = Group g0 ∧ Version (gvk m) = Version g0 ∧
    (HasSuffix (Kind g0) "List" = true ∧ IsListType obj = true →
       Kind g0 = Kind (gvk m) +:+ "List" ∧
       Kind (gvk m) = dropLast 4 (Kind g0)) ∧
    (Kind g0 = "WidgetList" ∧ IsListType obj = true →
       Kind (gvk m) = "Widget") ∧
    (HasSuffix (Kind g0) "List" = false ∨ IsListType obj = false →
       gvk m = g0) ∧
    buildClient (cache s) (gvk m) isU = Ok (restInterface m) ∧
    RESTMappingOf (mapper (cache s)) (GroupKindOf (gvk m)) (Version (gvk m))
      = Ok (mapping m).
Proof.
  intros (m & Hc & -> & Hd & _)%newResource_Ok.
  apply construct_Ok_cases in Hc as (g0 & Hg & Hk & Hcl & Hmp).
  exists g0, m.
  destruct (itemGVK_group_version obj g0) as [HG HV].
  split; [done|]. split; [done|].
  split; [by rewrite Hk|]. split; [by rewrite Hk|].
  split.
  { intros [Hs Hl]. destruct (itemGVK_list obj g0 Hs Hl) as [Hi Hsplit].
    rewrite Hk. split; [done|]. by rewrite Hi. }
  split.
  { intros [Hw Hl].
    destruct (itemGVK_list obj g0) as [Hi _]; [by rewrite Hw | done |].
    by rewrite Hk, Hi, Hw. }
  split; [|done].
  intros Hno. rewrite Hk. by apply itemGVK_other.
Qed.

(** ** Accessors *)

(** C7: [isNamespaced] is false exactly when the name of the scope of the
    REST mapping of the record is [meta.RESTScopeNameRoot], and true for every
    other scope; it reads the record and nothing else, so two records with
    the same scope name get the same answer. *)
Theorem isNamespaced_unless_root (m : resourceMeta) :
  (isNamespaced m = false ↔ Name (Scope (mapping m)) = RESTScopeNameRoot) ∧
  (isNamespaced m = true ↔ Name (Scope (mapping m)) ≠ RESTScopeNameRoot) ∧
  (∀ m' : resourceMeta,
     Name (Scope (mapping m')) = Name (Scope (mapping m)) →
     isNamespaced m' = isNamespaced m).
Proof.
  unfold isNamespaced. split; [|split].
  - case_bool_decide; split; done.
  - case_bool_decide; split; done.
  - by intros m' ->.
Qed.

(** C8: [getObjMeta] resolves the object first.  When the resolution fails
    it returns that error; otherwise it asks for the accessor of the object
    and returns the error of that when there is none; otherwise it returns
    the pair of the pointer the resolution returned, which the table of the
    path of the object holds, and the accessor.  In every case the state is
    the one the resolution left: the pair is stored nowhere. *)
Theorem getObjMeta_resolves_then_accesses obj s :
  let res := (getResource obj s).1 in
  let s' := (getResource obj s).2 in
  (getObjMeta obj s).2 = s' ∧
  (∀ e, res = Err e → (getObjMeta obj s).1 = Err e) ∧
  (∀ (r : nat) e, res = Ok r → Accessor obj = Err e →
     (getObjMeta obj s).1 = Err e) ∧
  (∀ (r : nat) m, res = Ok r → Accessor obj = Ok m →
     (getObjMeta obj s).1 = Ok (mkObjMeta r m) ∧
     lookupBy (pathOf obj) obj (cache s') = Some r).
Proof.
  intros res s'. rewrite getObjMeta_eq. fold res s'. simpl.
  split; [done|]. split; [by intros e ->|]. split.
  - by intros r e -> ->.
  - intros r m Hr ->. rewrite Hr. split; [done|].
    apply (getBy_Ok_lookup _ _ s). rewrite <- getResource_pathOf.
    subst res s'. destruct (getResource obj s); simpl in *. by subst.
Qed.

(** ** The two tables *)

Lemma getBy_wellFormed (p : path) obj s :
  wellFormed s → wellFormed (getBy p obj s).2.
Proof.
  intros [H1 H2]. rewrite getBy_eq.
  destruct (lookupBy p obj (cache s)); [done|].
  rewrite initBy_eq. cbv zeta.
  destruct (construct _ _ _); [|done].
  split; simpl; intros k r; rewrite length_app; simpl;
    destruct p; simpl; intros Hk.
  - apply lookup_insert_Some in Hk as [[_ <-]|[_ Hk]]; [lia|].
    apply H1 in Hk. lia.
  - apply H1 in Hk. lia.
  - apply H2 in Hk. lia.
  - apply lookup_insert_Some in Hk as [[_ <-]|[_ Hk]]; [lia|].
    apply H2 in Hk. lia.
Qed.

Lemma getBy_tablesDisjoint (p : path) obj s :
  wellFormed s → tablesDisjoint s → tablesDisjoint (getBy p obj s).2.
Proof.
  intros [H1 H2] Hd. rewrite getBy_eq.
  destruct (lookupBy p obj (cache s)); [done|].
  rewrite initBy_eq. cbv zeta.
  destruct (construct _ _ _); [|done].
  intros t k r; destruct p; simpl; intros Ht Hk.
  - apply lookup_insert_Some in Ht as [[_ <-]|[_ Ht]].
    + apply H2 in Hk. lia.
    + by eapply Hd.
  - apply lookup_insert_Some in Hk as [[_ <-]|[_ Hk]].
    + apply H1 in Ht. lia.
    + by eapply Hd.
Qed.

Lemma runOp_invariant (o : op) s :
  wellFormed s ∧ tablesDisjoint s →
  wellFormed (runOp o s) ∧ tablesDisjoint (runOp o s).
Proof.
  intros [Hw Hd].
  destruct o; simpl; rewrite ?getObjMeta_eq, ?getResource_pathOf; simpl.
  1,4: split; [by apply getBy_wellFormed | by apply getBy_tablesDisjoint].
  - split; [by apply (getBy_wellFormed ByType)
           | by apply (getBy_tablesDisjoint ByType)].
  - split; [by apply (getBy_wellFormed ByGVK)
           | by apply (getBy_tablesDisjoint ByGVK)].
  - done.
Qed.

Lemma run_invariant (ops : list op) s :
  wellFormed s ∧ tablesDisjoint s →
  wellFormed (run ops s) ∧ tablesDisjoint (run ops s).
Proof.
  revert s. induction ops as [|o ops IH]; intros s Hs; simpl; [done|].
  apply IH. by apply runOp_invariant.
Qed.

Lemma getResourceByType_frame obj s (t : gmap GroupVersionKind nat) :
  getResourceByType obj (withByGVK t s) =
  ((getResourceByType obj s).1, withByGVK t (getResourceByType obj s).2).
Proof.
  rewrite !getResourceByType_eq, !probeByType_eq. simpl.
  destruct (resourceByType (cache s) !! TypeOf obj); [done|].
  rewrite !initByType_eq. simpl.
  change (construct _ obj false) with (construct (cache s) obj false).
  change (constructCalls _ obj false)
    with (constructCalls (cache s) obj false).
  by destruct (construct (cache s) obj false).
Qed.

Lemma getUnstructuredResourceByGVK_frame obj s (t : gmap reflectType nat) :
  getUnstructuredResourceByGVK obj (withByType t s) =
  ((getUnstructuredResourceByGVK obj s).1,
   withByType t (getUnstructuredResourceByGVK obj s).2).
Proof.
  rewrite !getUnstructuredResourceByGVK_eq, !probeByGVK_eq. simpl.
  destruct (unstructuredResourceByGVK (cache s) !! ObjectGVK obj); [done|].
  rewrite !initByGVK_eq. simpl.
  change (construct _ obj true) with (construct (cache s) obj true).
  change (constructCalls _ obj true)
    with (constructCalls (cache s) obj true).
  by destruct (construct (cache s) obj true).
Qed.

Lemma constructCalls_isCall c obj (isU : bool) :
  Forall (λ e, isCall e = true) (constructCalls c obj isU).
Proof.
  unfold constructCalls, clientCall.
  destruct (GVKForObject obj (scheme c)) as [g0|e0];
    [destruct (buildClient c (itemGVK obj g0) isU), isU|];
    repeat constructor.
Qed.

Lemma isCall_mutexOf (e : event) : isCall e = true → mutexOf e = None.
Proof. by destruct e. Qed.

Lemma getBy_newEvents (p : path) obj s :
  Forall (λ e, ∀ m, mutexOf e = Some m → m = mutexOfPath p)
         (newEvents s (getBy p obj s).2).
Proof.
  assert (Forall (λ e, ∀ m, mutexOf e = Some m → m = mutexOfPath p)
            (constructCalls (cache s) obj (unstructuredPath p))) as Hcalls.
  { eapply Forall_impl; [apply constructCalls_isCall|].
    intros e He%isCall_mutexOf m. by rewrite He. }
  assert (∀ tl, Forall (λ e, ∀ m, mutexOf e = Some m → m = mutexOfPath p) tl →
            ∀ s', trace s' = trace s ++ tl →
            Forall (λ e, ∀ m, mutexOf e = Some m → m = mutexOfPath p)
                   (newEvents s s')) as Hnew.
  { intros tl Htl s' Htr. unfold newEvents.
    by rewrite Htr, drop_app_length. }
  assert (∀ m, (λ e, ∀ m', mutexOf e = Some m' → m' = m) (RLock m) ∧
               (λ e, ∀ m', mutexOf e = Some m' → m' = m) (RUnlock m) ∧
               (λ e, ∀ m', mutexOf e = Some m' → m' = m) (Lock m) ∧
               (λ e, ∀ m', mutexOf e = Some m' → m' = m) (Unlock m))
    as Hlocks.
  { intros m. repeat split; by intros m' [= <-]. }
  destruct (Hlocks (mutexOfPath p)) as (HR & HRU & HL & HU).
  rewrite getBy_eq. destruct (lookupBy p obj (cache s)).
  - apply (Hnew [RLock (mutexOfPath p); RUnlock (mutexOfPath p)]); [|done].
    repeat (apply Forall_cons; split; [assumption|]). constructor.
  - rewrite initBy_eq. cbv zeta.
    eapply (Hnew ([RLock (mutexOfPath p); RUnlock (mutexOfPath p)] ++
                  locked (mutexOfPath p)
                    (constructCalls (cache s) obj (unstructuredPath p)))).
    + unfold locked. repeat (apply Forall_app; split); try assumption;
        repeat (apply Forall_cons; split; [assumption|]); constructor.
    + destruct (construct _ _ _); simpl; by rewrite <- app_assoc.
Qed.

(** C6: every lookup works on the table of its own path.  A lookup by type
    leaves the GVK table as it is, returns the same result whatever the GVK
    table holds, and locks the mutex of the type table only; a lookup by GVK
    does the same with the roles exchanged.  So, in a cache in which no
    record is reachable through both tables, as in a new one, no sequence of
    operations makes one so: a pointer that a lookup by type has returned is
    never what a probe of the GVK table finds, and a pointer that a lookup by
    GVK has returned is never what a probe of the type table finds. *)
Theorem tables_are_independent s :
  (∀ obj, unstructuredResourceByGVK (cache (getResourceByType obj s).2)
          = unstructuredResourceByGVK (cache s)) ∧
  (∀ obj, resourceByType (cache (getUnstructuredResourceByGVK obj s).2)
          = resourceByType (cache s)) ∧
  (∀ obj t, getResourceByType obj (withByGVK t s) =
            ((getResourceByType obj s).1,
             withByGVK t (getResourceByType obj s).2)) ∧
  (∀ obj t, getUnstructuredResourceByGVK obj (withByType t s) =
            ((getUnstructuredResourceByGVK obj s).1,
             withByType t (getUnstructuredResourceByGVK obj s).2)) ∧
  (∀ p obj, Forall (λ e, ∀ m, mutexOf e = Some m → m = mutexOfPath p)
                   (newEvents s (getBy p obj s).2)) ∧
  (wellFormed s → tablesDisjoint s →
   ∀ ops : list op,
    tablesDisjoint (run ops s) ∧
    (∀ obj (r : nat) s1,
       getResourceByType obj (run ops s) = (Ok r, s1) →
       ∀ (ops' : list op) obj', (probeByGVK obj' (run ops' s1)).1 ≠ Some r) ∧
    (∀ obj (r : nat) s1,
       getUnstructuredResourceByGVK obj (run ops s) = (Ok r, s1) →
       ∀ (ops' : list op) obj', (probeByType obj' (run ops' s1)).1 ≠ Some r)).
Proof.
  split. { intros obj. by cases_byType obj s. }
  split. { intros obj. by cases_byGVK obj s. }
  split; [intros obj t; apply getResourceByType_frame|].
  split; [intros obj t; apply getUnstructuredResourceByGVK_frame|].
  split; [intros; apply getBy_newEvents|].
  intros Hw Hd ops.
  destruct (run_invariant ops s (conj Hw Hd)) as [Hw1 Hd1].
  split; [done|].
  assert (∀ (p : path) obj (r : nat) s1 (ops' : list op),
            getBy p obj (run ops s) = (Ok r, s1) →
            lookupBy p obj (cache (run ops' s1)) = Some r ∧
            tablesDisjoint (run ops' s1)) as Hkey.
  { intros p obj r s1 ops' Hget.
    pose proof (getBy_wellFormed p obj _ Hw1) as Hw2.
    pose proof (getBy_tablesDisjoint p obj _ Hw1 Hd1) as Hd2.
    rewrite Hget in Hw2, Hd2. simpl in Hw2, Hd2.
    destruct (run_invariant ops' s1 (conj Hw2 Hd2)) as [_ Hd3].
    split; [|done].
    eapply extends_lookupBy; [apply run_extends|].
    by eapply getBy_Ok_lookup. }
  split.
  - intros obj r s1 Hget ops' obj'.
    destruct (Hkey ByType obj r s1 ops' Hget) as [Hl Hd3].
    rewrite probeByGVK_eq. simpl. by eapply Hd3.
  - intros obj r s1 Hget ops' obj'.
    destruct (Hkey ByGVK obj r s1 ops' Hget) as [Hl Hd3].
    rewrite probeByType_eq. simpl. intros Ht. by eapply Hd3.
Qed.

(** ** Keys on the GVK path *)

Lemma append_List_ne (k : string) : k +:+ "List" ≠ k.
Proof.
  intros H. apply (f_equal String.length) in H.
  rewrite length_append in H. simpl in H. lia.
Qed.

(** C10: on the GVK path the key is the GVK the object declares, as it is,
    while the record carries the GVK after the suffix was cut off.  For a
    list container whose declared kind ends in "List", resolved to its
    declared GVK, the entry goes under the declared kind (with the suffix)
    and points to a record of the item kind (without it); no entry appears
    under the item kind.  A later lookup of an object that declares the item
    kind therefore misses, when the item kind was not in the table before,
    and constructs a record of its own at a new address, after which the
    table holds both entries. *)
Theorem gvk_key_keeps_the_list_suffix obj s (r : nat) s1 :
  unstructuredResourceByGVK (cache s) !! ObjectGVK obj = None →
  GVKForObject obj (scheme (cache s)) = Ok (ObjectGVK obj) →
  HasSuffix (Kind (ObjectGVK obj)) "List" = true →
  IsListType obj = true →
  getUnstructuredResourceByGVK obj s = (Ok r, s1) →
  let item := setKind (ObjectGVK obj) (dropLast 4 (Kind (ObjectGVK obj))) in
  unstructuredResourceByGVK (cache s1) !! ObjectGVK obj = Some r ∧
  Kind (ObjectGVK obj) = Kind item +:+ "List" ∧
  (Kind (ObjectGVK obj) = "WidgetList" → Kind item = "Widget") ∧
  (∃ m, deref s1 r = Some m ∧ gvk m = item) ∧
  unstructuredResourceByGVK (cache s1) !! item
    = unstructuredResourceByGVK (cache s) !! item ∧
  ∀ obj' (r' : nat) s2,
    ObjectGVK obj' = item →
    unstructuredResourceByGVK (cache s) !! item = None →
    getUnstructuredResourceByGVK obj' s1 = (Ok r', s2) →
    (probeByGVK obj' s1).1 = None ∧
    r' = length (heap s1) ∧ r' ≠ r ∧
    (∃ m', construct (cache s1) obj' true = Ok m' ∧
           heap s2 = heap s1 ++ [m'] ∧ deref s2 r' = Some m') ∧
    unstructuredResourceByGVK (cache s2) !! item = Some r' ∧
    unstructuredResourceByGVK (cache s2) !! ObjectGVK obj = Some r.
Proof.
  intros Hmiss Hg Hsuf Hlist Hget item.
  destruct (itemGVK_list obj (ObjectGVK obj) Hsuf Hlist) as [Hitem Hsplit].
  fold item in Hitem. rewrite Hitem in Hsplit.
  assert (item ≠ ObjectGVK obj) as Hne.
  { intros Heq. rewrite <- Heq in Hsplit at 1.
    symmetry in Hsplit. by apply append_List_ne in Hsplit. }
  revert Hget. rewrite getUnstructuredResourceByGVK_eq, probeByGVK_eq, Hmiss.
  rewrite initByGVK_eq. cbv zeta. simpl.
  destruct (construct (cache s) obj true) as [m|e] eqn:Hc; [|done].
  intros [= <- <-]. simpl.
  apply construct_Ok_cases in Hc as (g0 & Hg0 & Hk & _).
  rewrite Hg in Hg0. injection Hg0 as <-. rewrite Hitem in Hk.
  split; [apply lookup_insert_eq|]. split; [done|].
  split.
  { intros Hw. subst item. simpl. by rewrite Hw. }
  split.
  { exists m. split; [|done]. unfold deref; simpl.
    by rewrite lookup_app_r, Nat.sub_diag. }
  split; [by apply lookup_insert_ne|].
  intros obj' r' s2 Hk' Hmiss'.
  rewrite getUnstructuredResourceByGVK_eq, probeByGVK_eq. simpl.
  rewrite Hk', lookup_insert_ne, Hmiss' by done.
  rewrite initByGVK_eq. cbv zeta. simpl.
  match goal with |- context [construct ?c obj' true] =>
    destruct (construct c obj' true) as [m'|e'] eqn:Hc'; [|done] end.
  intros [= <- <-]. simpl. rewrite length_app. simpl.
  split; [done|]. split; [done|]. split; [lia|].
  split.
  { exists m'. split; [done|]. split; [done|]. unfold deref; simpl.
    rewrite (lookup_app_r (heap s ++ [m])); rewrite length_app; simpl; [|lia].
    by rewrite Nat.sub_diag. }
  rewrite Hk'. split; [apply lookup_insert_eq|].
  rewrite lookup_insert_ne by done. apply lookup_insert_eq.
Qed.

(** ** Several callers at once *)

Lemma countAt_cons (f : pc → bool) (t : thread) (ts : list thread) :
  countAt f (t :: ts) = flag (f (thPc t)) + countAt f ts.
Proof.
  unfold countAt. rewrite filter_cons. case_decide as H; simpl.
  - by rewrite H.
  - by destruct (f (thPc t)).
Qed.

Lemma countAt_insert (f : pc → bool) (ts : list thread) (i : nat)
    (t t' : thread) :
  ts !! i = Some t →
  countAt f (<[i := t']> ts) + flag (f (thPc t))
  = countAt f ts + flag (f (thPc t')).
Proof.
  revert i. induction ts as [|x ts IH]; intros [|i] Hi; simpl in *; try done.
  - injection Hi as ->. rewrite !countAt_cons. lia.
  - rewrite !countAt_cons. specialize (IH i Hi). lia.
Qed.

Lemma countAt_zero (f : pc → bool) (ts : list thread) (i : nat) (t : thread) :
  countAt f ts = 0 → ts !! i = Some t → f (thPc t) = false.
Proof.
  revert i. induction ts as [|x ts IH]; intros i H0 Hi; [done|].
  rewrite countAt_cons in H0. destruct i as [|i]; simpl in Hi.
  - injection Hi as ->. destruct (f (thPc t)); [simpl in H0; lia | done].
  - apply (IH i); [lia | done].
Qed.

Lemma countAt_one (f : pc → bool) (ts : list thread) (i j : nat)
    (ti tj : thread) :
  countAt f ts = 1 → ts !! i = Some ti → ts !! j = Some tj →
  f (thPc ti) = true → f (thPc tj) = true → i = j.
Proof.
  revert i j. induction ts as [|x ts IH]; intros i j H1 Hi Hj Fi Fj; [done|].
  rewrite countAt_cons in H1.
  destruct i as [|i], j as [|j]; simpl in *; try done.
  - injection Hi as ->. rewrite Fi in H1. simpl in H1.
    assert (countAt f ts = 0) as H0 by lia.
    by rewrite (countAt_zero f ts j tj H0 Hj) in Fj.
  - injection Hj as ->. rewrite Fj in H1. simpl in H1.
    assert (countAt f ts = 0) as H0 by lia.
    by rewrite (countAt_zero f ts i ti H0 Hi) in Fi.
  - f_equal. apply IH; try done.
    destruct (f (thPc x)); simpl in H1; [|done].
    assert (countAt f ts = 0) as H0 by lia.
    by rewrite (countAt_zero f ts i ti H0 Hi) in Fi.
Qed.

Lemma countAt_pos (f : pc → bool) (ts : list thread) (i : nat) (t : thread) :
  ts !! i = Some t → f (thPc t) = true → 1 ≤ countAt f ts.
Proof.
  intros Hi Ft. destruct (countAt f ts) eqn:E; [|lia].
  by rewrite (countAt_zero f ts i t E Hi) in Ft.
Qed.

Lemma spawn_lockInv s (objs : list Object) : lockInv (spawn s objs).
Proof.
  unfold lockInv, spawn; simpl.
  assert (∀ f, f AtRLock = false →
               countAt f (map (λ o, mkThread o AtRLock 0) objs) = 0) as H0.
  { intros f Hf. induction objs as [|o objs IH]; [done|].
    simpl. rewrite countAt_cons. simpl. by rewrite Hf, IH. }
  by rewrite !H0.
Qed.

(** The lock discipline is kept by every statement of every caller. *)
Lemma stepPool_lockInv (p : path) (i : nat) (pl pl' : pool) :
  lockInv pl → stepPool p i pl = Some pl' → lockInv pl'.
Proof.
  intros (HR & HW & HX). unfold stepPool.
  destruct (threads pl !! i) as [t|] eqn:Hi; [|done].
  pose proof (λ f t', countAt_insert f (threads pl) i t t' Hi) as Hcount.
  destruct t as [o c b]. unfold stepThread. simpl in *.
  destruct c as [| |known| | |r|res|res]; simpl.
  - destruct (writer (mu pl)) eqn:Hw; [done|]. intros [= <-].
    unfold lockInv; simpl.
    pose proof (Hcount reading (mkThread o AtProbe b)).
    pose proof (Hcount writing (mkThread o AtProbe b)).
    simpl in *. rewrite ?Hw in *. repeat split; try lia; try done.
  - intros [= <-]. unfold lockInv; simpl.
    pose proof (Hcount reading
                  (mkThread o (AtRUnlock (lookupBy p o (cache (shared pl)))) b)).
    pose proof (Hcount writing
                  (mkThread o (AtRUnlock (lookupBy p o (cache (shared pl)))) b)).
    simpl in *. repeat split; try lia; try done.
  - intros [= <-]. unfold lockInv; simpl.
    set (c' := match known with Some r => Returned (Ok r) | None => AtLock end).
    assert (reading c' = false ∧ writing c' = false) as [Hr' Hw']
      by (by destruct known).
    pose proof (Hcount reading (mkThread o c' b)).
    pose proof (Hcount writing (mkThread o c' b)).
    simpl in *. rewrite Hr', Hw' in *. simpl in *.
    repeat split; try lia; try done. intros Hw. specialize (HX Hw). lia.
  - destruct (writer (mu pl)) eqn:Hw; [done|]. simpl.
    destruct (readers (mu pl) =? 0) eqn:Hz; [|done]. simpl.
    apply Nat.eqb_eq in Hz. intros [= <-]. unfold lockInv; simpl.
    pose proof (Hcount reading (mkThread o AtNewResource b)).
    pose proof (Hcount writing (mkThread o AtNewResource b)).
    simpl in *. repeat split; try lia; try done.
  - destruct (newResource o (unstructuredPath p) (shared pl)) as [rr s'].
    intros [= <-]. unfold lockInv; simpl.
    set (c' := match rr with Ok r => AtStore r | Err e => AtUnlock (Err e) end).
    assert (reading c' = false ∧ writing c' = true) as [Hr' Hw']
      by (by destruct rr).
    pose proof (Hcount reading (mkThread o c' (S b))).
    pose proof (Hcount writing (mkThread o c' (S b))).
    simpl in *. rewrite Hr', Hw' in *. simpl in *.
    repeat split; try lia; try done.
  - intros [= <-]. unfold lockInv; simpl.
    pose proof (Hcount reading (mkThread o (AtUnlock (Ok r)) b)).
    pose proof (Hcount writing (mkThread o (AtUnlock (Ok r)) b)).
    simpl in *. repeat split; try lia; try done.
  - intros [= <-]. unfold lockInv; simpl.
    pose proof (Hcount reading (mkThread o (Returned res) b)).
    pose proof (Hcount writing (mkThread o (Returned res) b)).
    simpl in *. destruct (writer (mu pl)); simpl in *;
      repeat split; try lia; done.
  - done.
Qed.

Lemma construct_sameWorld c c0 obj (isU : bool) :
  sameWorld c c0 → construct c obj isU = construct c0 obj isU.
Proof.
  intros (Hcfg & Hsch & Hmp & Hcod).
  unfold construct, buildClient.
  by rewrite Hcfg, Hsch, Hmp, Hcod.
Qed.



Lemma sameWorld_insertBy (p : path) obj (r : nat) c c0 :
  sameWorld c c0 → sameWorld (insertBy p obj r c) c0.
Proof. by destruct p. Qed.

Lemma lookupBy_insertBy_sameKey (p : path) obj obj' (r : nat) c :
  sameKey p obj obj' → lookupBy p obj (insertBy p obj' r c) = Some r.
Proof. destruct p; simpl; intros ->; apply lookup_insert_eq. Qed.








Lemma runPool_invariant (I : pool → Prop) (p : path) :
  (∀ i pl pl', I pl → stepPool p i pl = Some pl' → I pl') →
  ∀ (sched : list nat) pl, I pl → I (runPool p sched pl).
Proof.
  intros Hstep sched. induction sched as [|i sched IH]; intros pl Hpl; [done|].
  simpl. apply IH. destruct (stepPool p i pl) as [pl'|] eqn:Hs; simpl; eauto.
Qed.


Lemma runPool_cons (p : path) (i : nat) (sched : list nat) (pl : pool) :
  runPool p (i :: sched) pl = runPool p sched (default pl (stepPool p i pl)).
Proof. reflexivity. Qed.

Lemma stepPool_single (p : path) s (l : rwmutex) (t : thread) (st : list nat) :
  stepPool p 0 (mkPool s l [t] st) =
  match stepThread p t s l with
  | None => None
  | Some (t', s', l', w) =>
    Some (mkPool s' l' [t']
            (match w with Some r => r :: st | None => st end))
  end.
Proof. reflexivity. Qed.

Ltac step_alone :=
  rewrite runPool_cons, stepPool_single;
  cbn [stepThread thPc thObj thBuilt writer readers from_option id negb orb
       Nat.eqb pred emit snd cache heap trace].

(** A caller alone in its pool does what the sequential function does: the
    seven statements of a miss, or the three of a hit, leave the state and
    the result of [getBy]. *)
Lemma runPool_alone (p : path) obj s :
  let pl := runPool p (replicate 7 0) (spawn s [obj]) in
  shared pl = (getBy p obj s).2 ∧
  resultOf pl 0 = Some (getBy p obj s).1 ∧
  mu pl = mkRW 0 false.
Proof.
  rewrite getBy_eq. unfold spawn. change (replicate 7 0) with [0;0;0;0;0;0;0].
  cbn [map]. do 3 step_alone.
  destruct (lookupBy p obj (cache s)) as [r|] eqn:Hl.
  - do 4 step_alone. unfold probed. cbn. by rewrite <- app_assoc.
  - do 2 step_alone. rewrite newResource_eq, initBy_eq. cbv zeta.
    cbn [cache heap trace probed].
    destruct (construct (cache s) obj (unstructuredPath p)) as [m|e];
      cbn [from_option id]; do 2 step_alone; unfold locked; cbn;
      by rewrite <- !app_assoc.
Qed.

(** *** Progress *)






(** *** A schedule on which every caller constructs *)

Lemma stepPool_middle (p : path) s (l : rwmutex) (done : list thread)
    (t : thread) (rest : list thread) (st : list nat) :
  stepPool p (length done) (mkPool s l (done ++ t :: rest) st) =
  match stepThread p t s l with
  | None => None
  | Some (t', s', l', w) =>
    Some (mkPool s' l' (done ++ t' :: rest)
            (match w with Some r => r :: st | None => st end))
  end.
Proof.
  unfold stepPool. cbn [threads shared mu stored].
  rewrite list_lookup_middle by done.
  destruct (stepThread p t s l) as [[[[t' s'] l'] w]|]; [|done].
  by rewrite insert_app_r_alt, Nat.sub_diag by lia.
Qed.









Lemma resultOf_Some (pl : pool) (i : nat) (res : result error nat) :
  resultOf pl i = Some res →
  ∃ t, threads pl !! i = Some t ∧ thPc t = Returned res.
Proof.
  unfold resultOf. destruct (threads pl !! i) as [t|]; [|done].
  destruct (thPc t) eqn:Hc; try done. intros [= ->]. by exists t.
Qed.



End Properties.

(** * Further properties of the cache *)

Section FurtherProperties.
Context `{P : Platform}.

Implicit Types (obj : Object) (s : state) (c : clientCache).

(** ** Valid pointers *)

Lemma runOp_wellFormed (o : op) s : wellFormed s → wellFormed (runOp o s).
Proof.
  intros Hw. destruct o; simpl;
    rewrite ?getObjMeta_eq, ?getResource_pathOf; simpl.
  1,4: by apply getBy_wellFormed.
  - by apply (getBy_wellFormed ByType).
  - by apply (getBy_wellFormed ByGVK).
  - done.
Qed.

Lemma run_wellFormed (ops : list op) s : wellFormed s → wellFormed (run ops s).
Proof.
  revert s. induction ops as [|o ops IH]; intros s Hw; simpl; [done|].
  apply IH. by apply runOp_wellFormed.
Qed.

(** X1: in a cache whose tables point into the heap, as those of a new
    cache do, they keep doing so whatever operations are run, and every
    pointer that [getResource] or [getObjMeta] returns points to a record:
    a caller never gets a dangling [*resourceMeta]. *)
Theorem resolved_pointer_is_valid s (ops : list op) obj :
  wellFormed s →
  let s1 := run ops s in
  wellFormed s1 ∧
  (∀ (r : nat) s', getResource obj s1 = (Ok r, s') →
     wellFormed s' ∧ ∃ m, deref s' r = Some m) ∧
  (∀ (om : objMeta) s', getObjMeta obj s1 = (Ok om, s') →
     wellFormed s' ∧ ∃ m, deref s' (metaResource om) = Some m).
Proof.
  intros Hw s1. assert (wellFormed s1) as Hw1 by by apply run_wellFormed.
  assert (∀ (r : nat) s', getResource obj s1 = (Ok r, s') →
            wellFormed s' ∧ ∃ m, deref s' r = Some m) as Hres.
  { intros r s' Hget. rewrite getResource_pathOf in Hget.
    pose proof (getBy_wellFormed (pathOf obj) obj s1 Hw1) as Hw'.
    rewrite Hget in Hw'. split; [done|].
    eapply wellFormed_lookupBy; [done|]. by eapply getBy_Ok_lookup. }
  split; [done|]. split; [done|].
  intros om s'. rewrite getObjMeta_eq.
  destruct (getResource obj s1) as [[r|e] s2] eqn:Hget; simpl; [|done].
  destruct (Accessor obj); intros [= <- <-]. simpl. by apply Hres.
Qed.

(** ** The protocol of locks and calls *)

Lemma runProtocol_app (st : lockState) (evs evs' : list event) :
  runProtocol st (evs ++ evs') =
  match runProtocol st evs with
  | Some st' => runProtocol st' evs'
  | None => None
  end.
Proof.
  revert st. induction evs as [|e evs IH]; intros st; simpl; [done|].
  by destruct (protocolStep st e).
Qed.

Lemma constructCalls_protocol (p : path) c obj :
  ∃ n, runProtocol (WriteHeld (mutexOfPath p) 0)
         (constructCalls c obj (unstructuredPath p))
       = Some (WriteHeld (mutexOfPath p) (S n)).
Proof.
  unfold constructCalls, clientCall.
  destruct p; cbn [unstructuredPath mutexOfPath];
    (destruct (GVKForObject obj (scheme c)) as [g0|e0]; [|by eexists]);
    (destruct (buildClient c (itemGVK obj g0) _); by eexists).
Qed.

Lemma probe_protocol (m : mutex) :
  runProtocol Free [RLock m; RUnlock m] = Some Free.
Proof. destruct m; reflexivity. Qed.

Lemma lock_protocol (m : mutex) :
  runProtocol Free [Lock m] = Some (WriteHeld m 0).
Proof. done. Qed.

Lemma unlock_protocol (m : mutex) (n : nat) :
  runProtocol (WriteHeld m (S n)) [Unlock m] = Some Free.
Proof. destruct m, n as [|[|[|n]]]; reflexivity. Qed.

Lemma getBy_protocol (p : path) obj s :
  ∃ evs, trace (getBy p obj s).2 = trace s ++ evs ∧
         runProtocol Free evs = Some Free.
Proof.
  rewrite getBy_eq. destruct (lookupBy p obj (cache s)).
  - exists [RLock (mutexOfPath p); RUnlock (mutexOfPath p)]. split; [done|].
    apply probe_protocol.
  - rewrite initBy_eq. cbv zeta.
    exists ([RLock (mutexOfPath p); RUnlock (mutexOfPath p)] ++
            locked (mutexOfPath p)
              (constructCalls (cache s) obj (unstructuredPath p))).
    split.
    + destruct (construct _ _ _); simpl; by rewrite <- app_assoc.
    + unfold locked.
      destruct (constructCalls_protocol p (cache s) obj) as [n Hn].
      rewrite runProtocol_app, probe_protocol.
      rewrite runProtocol_app, lock_protocol.
      rewrite runProtocol_app, Hn. apply unlock_protocol.
Qed.

Lemma runOp_protocol (o : op) s :
  ∃ evs, trace (runOp o s) = trace s ++ evs ∧
         runProtocol Free evs = Some Free.
Proof.
  destruct o; simpl; rewrite ?getObjMeta_eq, ?getResource_pathOf; simpl.
  1,4: apply getBy_protocol.
  - apply (getBy_protocol ByType).
  - apply (getBy_protocol ByGVK).
  - exists []. by rewrite app_nil_r.
Qed.

(** X2: whatever operations a caller runs, one after the other, the
    events they add to the trace follow the protocol and end with nothing
    held: every lock taken is released by the same operation, also when the
    construction fails; no lock is taken while another is held; calls leave
    the package only under a write lock, at most three of them, in the order
    type resolver, transport factory, REST mapper; and the factory is asked
    for a typed client on the type path only, for a schema-less client on
    the GVK path only. *)
Theorem operations_follow_the_protocol s (ops : list op) :
  ∃ evs, trace (run ops s) = trace s ++ evs ∧
         newEvents s (run ops s) = evs ∧
         runProtocol Free evs = Some Free.
Proof.
  revert s. induction ops as [|o ops IH]; intros s; simpl.
  - exists []. unfold newEvents. rewrite app_nil_r, drop_all. done.
  - destruct (runOp_protocol o s) as (evs1 & Ht1 & Hp1).
    destruct (IH (runOp o s)) as (evs2 & Ht2 & _ & Hp2).
    exists (evs1 ++ evs2).
    assert (trace (run ops (runOp o s)) = trace s ++ evs1 ++ evs2) as Ht
      by (by rewrite Ht2, Ht1, <- app_assoc).
    split; [done|]. split.
    + unfold newEvents. by rewrite Ht, drop_app_length.
    + by rewrite runProtocol_app, Hp1.
Qed.

(** ** One entry per record *)

Lemma getBy_cases (p : path) obj s :
  let s' := (getBy p obj s).2 in
  (cache s' = cache s ∧ heap s' = heap s) ∨
  (lookupBy p obj (cache s) = None ∧
   cache s' = insertBy p obj (length (heap s)) (cache s) ∧
   ∃ m, construct (cache s) obj (unstructuredPath p) = Ok m ∧
        heap s' = heap s ++ [m]).
Proof.
  cbv zeta. rewrite getBy_eq.
  destruct (lookupBy p obj (cache s)) eqn:Hl; [by left|].
  rewrite initBy_eq. cbv zeta.
  destruct (construct _ _ _) as [m|e] eqn:Hc; [|by left].
  right. split; [done|]. split; [done|]. by exists m.
Qed.

Lemma injectiveTable_insert `{Countable K} (t : gmap K nat) (k : K) (r : nat) :
  injectiveTable t → (∀ k', t !! k' ≠ Some r) →
  injectiveTable (<[k := r]> t).
Proof.
  intros Hinj Hnew k1 k2 r' H1 H2.
  apply lookup_insert_Some in H1 as [[<- <-]|[Hne1 H1]];
    apply lookup_insert_Some in H2 as [[<- Hr]|[Hne2 H2]]; try done.
  - by destruct (Hnew k2).
  - subst. by destruct (Hnew k1).
  - by eapply Hinj.
Qed.

Lemma getBy_oneEntry (p : path) obj s :
  oneEntryPerRecord s → oneEntryPerRecord (getBy p obj s).2.
Proof.
  intros Hone. pose proof Hone as [Hw Hd HiT HiG Hsz].
  pose proof (getBy_wellFormed p obj s Hw) as Hw'.
  pose proof (getBy_tablesDisjoint p obj s Hw Hd) as Hd'.
  destruct (getBy_cases p obj s) as [[Hc Hh]|(Hmiss & Hc & m & _ & Hh)].
  - split; try done; rewrite ?Hc, ?Hh; done.
  - destruct Hw as [HwT HwG].
    split; try done; rewrite ?Hc, ?Hh; destruct p; simpl in *; try done.
    + apply injectiveTable_insert; [done|].
      intros k' Hk'. apply HwT in Hk'. lia.
    + apply injectiveTable_insert; [done|].
      intros k' Hk'. apply HwG in Hk'. lia.
    + rewrite map_size_insert_None, length_app by done. simpl. lia.
    + rewrite map_size_insert_None, length_app by done. simpl. lia.
Qed.

Lemma runOp_oneEntry (o : op) s :
  oneEntryPerRecord s → oneEntryPerRecord (runOp o s).
Proof.
  intros Hone. destruct o; simpl;
    rewrite ?getObjMeta_eq, ?getResource_pathOf; simpl.
  1,4: by apply getBy_oneEntry.
  - by apply (getBy_oneEntry ByType).
  - by apply (getBy_oneEntry ByGVK).
  - by destruct Hone.
Qed.

(** X3: in a cache used by one caller at a time, every record of the heap
    is held by exactly one entry, and operations keep it so: no two keys
    share a pointer, no pointer is in both tables, and the two tables have
    as many entries as the heap has records.  A resolution changes nothing,
    or it adds the entry of its own key, absent before, for one new record;
    it never replaces or removes an entry. *)
Theorem every_record_has_one_entry s (ops : list op) :
  oneEntryPerRecord s →
  let s1 := run ops s in
  oneEntryPerRecord s1 ∧
  ∀ obj, let s' := (getResource obj s1).2 in
    (cache s' = cache s1 ∧ heap s' = heap s1) ∨
    (lookupBy (pathOf obj) obj (cache s1) = None ∧
     cache s' = insertBy (pathOf obj) obj (length (heap s1)) (cache s1) ∧
     length (heap s') = S (length (heap s1))).
Proof.
  intros Hone s1. split.
  - subst s1. revert s Hone.
    induction ops as [|o ops IH]; intros s Hone; simpl; [done|].
    apply IH. by apply runOp_oneEntry.
  - intros obj. cbv zeta. rewrite getResource_pathOf.
    destruct (getBy_cases (pathOf obj) obj s1) as [?|(Hm & Hc & m & _ & Hh)];
      [by left|].
    right. split; [done|]. split; [done|].
    rewrite Hh, length_app. simpl. lia.
Qed.

(** ** The slice of the kind *)

Lemma length_substring_0 (n : nat) (s : string) :
  n ≤ String.length s → String.length (substring 0 n s) = n.
Proof.
  revert n. induction s as [|a s IH]; intros [|n] Hn; simpl in *;
    try done; try lia.
  rewrite IH; [done | lia].
Qed.

Lemma HasSuffix_length (s suffix : string) :
  HasSuffix s suffix = true → String.length suffix ≤ String.length s.
Proof.
  unfold HasSuffix. intros [Hlen _]%andb_true_iff. by apply Nat.leb_le.
Qed.

(** X4: the slice [gvk.Kind[:len(gvk.Kind)-4]] of [newResource] never
    panics.  Under the guard the kind has at least four bytes, so the slice
    is in range and is the kind without its last four bytes; a kind of fewer
    than four bytes, for which the slice would panic, does not pass the
    guard.  So the kind of the record is always the value of the Go
    expression, which for a list container of kind "List" is the empty
    string. *)
Theorem kind_slice_is_in_range obj (g : GroupVersionKind) :
  let k := Kind g in
  (HasSuffix k "List" = true →
     (4 ≤ len k)%Z ∧
     sliceTo k (len k - 4) = Some (dropLast 4 k) ∧
     len (dropLast 4 k) = (len k - 4)%Z) ∧
  ((len k < 4)%Z →
     HasSuffix k "List" = false ∧ sliceTo k (len k - 4) = None) ∧
  (if HasSuffix k "List" && IsListType obj
   then sliceTo k (len k - 4)
   else Some k) = Some (Kind (itemGVK obj g)) ∧
  (k = "List" → IsListType obj = true → Kind (itemGVK obj g) = "").
Proof.
  intros k.
  assert (HasSuffix k "List" = true →
            (4 ≤ len k)%Z ∧ sliceTo k (len k - 4) = Some (dropLast 4 k) ∧
            len (dropLast 4 k) = (len k - 4)%Z) as Hin.
  { intros Hs%HasSuffix_length. simpl in Hs. unfold len, sliceTo, dropLast.
    split; [lia|]. split.
    - rewrite decide_True by lia. do 2 f_equal. lia.
    - rewrite length_substring_0 by lia. lia. }
  split; [done|]. split; [|split].
  - intros Hlt. unfold len in Hlt. split.
    + destruct (HasSuffix k "List") eqn:Hs; [|done].
      apply HasSuffix_length in Hs. simpl in Hs. lia.
    + unfold sliceTo, len. by rewrite decide_False by lia.
  - unfold itemGVK. fold k.
    destruct (HasSuffix k "List") eqn:Hs; simpl; [|done].
    destruct (IsListType obj); simpl; [|done]. by apply Hin.
  - intros Hk Hl. unfold itemGVK. fold k. by rewrite Hk, Hl.
Qed.

(** ** [getObjMeta] again *)

(** X5: once an object is resolved, [getObjMeta] of it does no resolution
    again: whatever was done to the cache in between, it probes the table,
    makes no call and returns the cached pointer with the accessor.  The
    accessor is asked for every time: when the object has none, the
    resolution that preceded the error is kept in the cache and the error
    comes back at every call. *)
Theorem getObjMeta_resolves_once obj s (r : nat) s1 :
  getResource obj s = (Ok r, s1) →
  (getObjMeta obj s).2 = s1 ∧
  ∀ ops : list op,
    let s2 := run ops s1 in
    let mu := mutexOfPath (pathOf obj) in
    getObjMeta obj s2 =
      (match Accessor obj with
       | Ok m => Ok (mkObjMeta r m)
       | Err e => Err e
       end, probed mu s2) ∧
    calls (getObjMeta obj s2).2 = calls s2 ∧
    heap (getObjMeta obj s2).2 = heap s2 ∧
    cache (getObjMeta obj s2).2 = cache s2.
Proof.
  intros Hget. split; [by rewrite getObjMeta_eq, Hget|].
  intros ops s2 mu.
  assert (getResource obj s2 = (Ok r, probed mu s2)) as Hhit.
  { rewrite getResource_pathOf, getBy_eq.
    rewrite getResource_pathOf in Hget.
    erewrite extends_lookupBy; [done | apply run_extends |].
    by eapply getBy_Ok_lookup. }
  rewrite getObjMeta_eq, Hhit. simpl.
  split; [by destruct (Accessor obj)|]. split; [apply calls_probed | done].
Qed.

(** ** Callers for any objects *)

(** X6: while a caller is in the write section of a path, it can run its
    next statement and no other caller of the path can run any: those that
    want the read lock wait, also when their key is in the table, and so do
    those that want the write lock.  The construction, with its calls to the
    resolver and the factory, thus holds up every other lookup on the
    path. *)
Theorem write_section_runs_alone (p : path) s (objs : list Object)
    (sched : list nat) :
  let pl := runPool p sched (spawn s objs) in
  ∀ i ti, threads pl !! i = Some ti → writing (thPc ti) = true →
    (∃ pl', stepPool p i pl = Some pl') ∧
    (∀ j, j ≠ i → stepPool p j pl = None) ∧
    mu pl = mkRW 0 true.
Proof.
  intros pl i ti Hi Hwi.
  assert (lockInv pl) as (HR & HW & HX).
  { apply runPool_invariant; [|apply spawn_lockInv].
    intros ???. apply stepPool_lockInv. }
  pose proof (countAt_pos writing _ i ti Hi Hwi) as Hpos.
  assert (writer (mu pl) = true) as Hw
    by (destruct (writer (mu pl)); [done | simpl in HW; lia]).
  rewrite Hw in HW. simpl in HW. specialize (HX Hw).
  split; [|split].
  - unfold stepPool, stepThread. rewrite Hi. destruct ti as [o c b].
    simpl in *. destruct c; try done; try by eexists.
    destruct (newResource _ _ _). by eexists.
  - intros j Hne. unfold stepPool.
    destruct (threads pl !! j) as [tj|] eqn:Hj; [|done].
    assert (reading (thPc tj) = false) as Hrj.
    { apply (countAt_zero reading (threads pl) j); [|done]. by rewrite <- HR. }
    assert (writing (thPc tj) = false) as Hwj.
    { destruct (writing (thPc tj)) eqn:E; [|done].
      destruct Hne. symmetry.
      by apply (countAt_one writing (threads pl) i j ti tj). }
    unfold stepThread. destruct tj as [o c b]. simpl in *.
    destruct c; simpl in *; try done; by rewrite Hw.
  - rewrite <- HX, <- Hw. by destruct (mu pl).
Qed.

Lemma countAt_app (f : pc → bool) (ts ts' : list thread) :
  countAt f (ts ++ ts') = countAt f ts + countAt f ts'.
Proof. unfold countAt. by rewrite filter_app, length_app. Qed.

(** X7: readers do not hold up a hit.  When no caller holds the write lock
    or stands at [Lock], so that no writer is waiting either, a caller that
    enters with its key in the table returns the cached pointer after its
    three statements, however many callers hold the read lock; the count of
    readers, the other callers, the cache and the heap are as before, and
    still no caller is on the write side: a hit never asks for the write
    lock. *)
Theorem hit_passes_among_readers (p : path) s (n : nat) (done : list thread)
    (o : Object) (b : nat) (rest : list thread) (st : list nat) (r : nat) :
  lookupBy p o (cache s) = Some r →
  countAt writeSide (done ++ rest) = 0 →
  let pl := runPool p (replicate 3 (length done))
              (mkPool s (mkRW n false)
                 (done ++ mkThread o AtRLock b :: rest) st) in
  pl = mkPool (probed (mutexOfPath p) s) (mkRW n false)
         (done ++ mkThread o (Returned (Ok r)) b :: rest) st ∧
  countAt writeSide (threads pl) = 0.
Proof.
  intros Hhit Hnone pl.
  assert (pl = mkPool (probed (mutexOfPath p) s) (mkRW n false)
                 (done ++ mkThread o (Returned (Ok r)) b :: rest) st) as ->.
  { subst pl. cbn [replicate].
    do 3 (rewrite runPool_cons, stepPool_middle;
          cbn [stepThread thPc thObj thBuilt writer readers from_option id
               pred emit snd cache heap trace]).
    rewrite Hhit. unfold probed. cbn. by rewrite <- app_assoc. }
  split; [done|]. simpl.
  rewrite countAt_app in Hnone. rewrite countAt_app, countAt_cons. simpl. lia.
Qed.

Lemma spawn_poolSafe (p : path) s (objs : list Object) :
  wellFormed s → poolSafe p s objs (spawn s objs).
Proof.
  intros Hw. split; simpl; try done.
  - rewrite map_map. simpl. apply map_id.
  - by apply Forall_map, Forall_true.
  - intros r m Hr Hm. apply lookup_lt_Some in Hm. lia.
Qed.

Lemma poolSafe_update (p : path) s0 (objs : list Object) (pl : pool) sh'
    (l' : rwmutex) (i : nat) (t t' : thread) (st' : list nat) :
  poolSafe p s0 objs pl →
  threads pl !! i = Some t → thObj t' = thObj t →
  wellFormed sh' →
  sameWorld (cache sh') (cache s0) →
  heap (shared pl) `prefix_of` heap sh' →
  (∀ r, held (thPc t') = Some r → r < length (heap sh')) →
  (∀ r m, length (heap (shared pl)) ≤ r → heap sh' !! r = Some m →
          construct (cache s0) (thObj t) (unstructuredPath p) = Ok m) →
  poolSafe p s0 objs (mkPool sh' l' (<[i := t']> (threads pl)) st').
Proof.
  intros [Ho Hw Hwd Hh Hheld Hmade] Hi Hobj Hw' Hwd' Hh' Hheld' Hmade'.
  pose proof (prefix_length _ _ Hh') as Hlen.
  split; simpl; try done.
  - rewrite list_fmap_insert, Hobj.
    rewrite list_insert_id; [done|]. by rewrite list_lookup_fmap, Hi.
  - by etrans.
  - apply Forall_insert; [|done].
    eapply Forall_impl; [exact Hheld|]. intros t0 Ht0 r Hr.
    apply Ht0 in Hr. lia.
  - intros r m Hr Hm.
    destruct (decide (r < length (heap (shared pl)))) as [Hlt|Hge].
    + apply (Hmade r m Hr).
      destruct (lookup_lt_is_Some_2 _ _ Hlt) as [m' Hm'].
      pose proof (prefix_lookup_Some _ _ _ _ Hm' Hh') as Hm''. congruence.
    + exists (thObj t). split.
      * rewrite <- Ho. apply list_elem_of_fmap. exists t. split; [done|].
        by eapply list_elem_of_lookup_2.
      * apply (Hmade' r m); [lia | done].
Qed.

Lemma stepPool_poolSafe (p : path) s0 (objs : list Object) (i : nat)
    (pl pl' : pool) :
  poolSafe p s0 objs pl → stepPool p i pl = Some pl' → poolSafe p s0 objs pl'.
Proof.
  intros Hsafe. pose proof Hsafe as [Ho Hw Hwd Hh Hheld Hmade].
  unfold stepPool.
  destruct (threads pl !! i) as [t|] eqn:Hi; [|done].
  pose proof (Forall_lookup_1 _ _ _ _ Hheld Hi) as Ht.
  assert (∀ r m, length (heap (shared pl)) ≤ r →
            heap (shared pl) !! r = Some m →
            construct (cache s0) (thObj t) (unstructuredPath p) = Ok m)
    as Hnone.
  { intros r m Hr Hm. apply lookup_lt_Some in Hm. lia. }
  pose proof (λ sh' l' t' st', poolSafe_update p s0 objs pl sh' l' i t t' st'
                                 Hsafe Hi) as Hupd.
  destruct t as [o c b]. unfold stepThread. simpl in *.
  destruct c as [| |known| | |r|res|res]; simpl in *.
  - destruct (writer (mu pl)); [done|]. intros [= <-].
    apply Hupd; simpl; done.
  - intros [= <-]. apply Hupd; simpl; try done.
    intros r Hr. destruct Hw as [HwT HwG].
    destruct (lookupBy p o (cache (shared pl))) as [r0|] eqn:Hl; [|done].
    injection Hr as ->. destruct p; simpl in Hl; eauto.
  - intros [= <-]. apply Hupd; simpl; try done.
    intros r Hr. apply Ht. by destruct known.
  - destruct (writer (mu pl)); [done|]. simpl.
    destruct (readers (mu pl) =? 0); [|done]. simpl. intros [= <-].
    apply Hupd; simpl; done.
  - rewrite newResource_eq.
    rewrite (construct_sameWorld _ (cache s0) o) by done.
    destruct (construct (cache s0) o (unstructuredPath p)) as [m|e] eqn:Hc;
      intros [= <-].
    + apply Hupd; simpl; try done.
      * destruct Hw as [HwT HwG]. split; simpl; intros k r Hk;
          rewrite length_app; simpl; [apply HwT in Hk | apply HwG in Hk]; lia.
      * by apply prefix_app_r.
      * intros r [= <-]. rewrite length_app. simpl. lia.
      * intros r m' Hr Hm'.
        apply lookup_app_Some in Hm' as [Hm'|[_ Hm']].
        -- apply lookup_lt_Some in Hm'. lia.
        -- by apply list_lookup_singleton_Some in Hm' as [_ <-].
    + apply Hupd; simpl; done.
  - intros [= <-]. apply Hupd; simpl; try done.
    + destruct Hw as [HwT HwG]. specialize (Ht r eq_refl).
      split; destruct p; simpl; intros k r' Hk; eauto;
        apply lookup_insert_Some in Hk as [[_ <-]|[_ Hk]]; eauto.
    + by apply sameWorld_insertBy.
  - intros [= <-]. apply Hupd; simpl; done.
  - done.
Qed.

(** X8: callers for any objects, with any keys, started on a cache whose
    tables point into the heap.  Whatever the interleaving, the records the
    heap had are still there, every record added was constructed for the
    object of one of the callers, the tables point into the heap, and every
    caller that returns a pointer returns one that points to a record. *)
Theorem pool_pointers_are_valid (p : path) s (objs : list Object)
    (sched : list nat) :
  wellFormed s →
  let pl := runPool p sched (spawn s objs) in
  wellFormed (shared pl) ∧
  (∀ (r : nat) m, deref s r = Some m → deref (shared pl) r = Some m) ∧
  (∀ (r : nat) m, length (heap s) ≤ r → deref (shared pl) r = Some m →
     ∃ o, o ∈ objs ∧ construct (cache s) o (unstructuredPath p) = Ok m) ∧
  (∀ i (r : nat), resultOf pl i = Some (Ok r) →
     ∃ m, deref (shared pl) r = Some m).
Proof.
  intros Hw pl.
  assert (poolSafe p s objs pl) as [Ho Hw' Hwd Hh Hheld Hmade].
  { apply runPool_invariant; [|by apply spawn_poolSafe].
    intros ???. apply stepPool_poolSafe. }
  split; [done|]. split; [|split].
  - intros r m Hm. by eapply prefix_lookup_Some.
  - apply Hmade.
  - intros i r (t & Hi & Hc)%resultOf_Some.
    apply lookup_lt_is_Some_2.
    apply (Forall_lookup_1 _ _ _ _ Hheld Hi). by rewrite Hc.
Qed.

(** ** Keys and pointers *)

Lemma lookupBy_insertBy_other (p p' : path) obj obj' (r : nat) c :
  p' ≠ p ∨ ¬ sameKey p obj obj' →
  lookupBy p' obj' (insertBy p obj r c) = lookupBy p' obj' c.
Proof.
  destruct p, p'; simpl; intros [Hp|Hk]; try done;
    by rewrite lookup_insert_ne.
Qed.

Lemma sameKey_dec (p : path) obj obj' : Decision (sameKey p obj obj').
Proof. destruct p; simpl; apply _. Qed.

Lemma sameKey_sym (p : path) obj obj' : sameKey p obj obj' → sameKey p obj' obj.
Proof. by destruct p. Qed.

Lemma run_oneEntry (ops : list op) s :
  oneEntryPerRecord s → oneEntryPerRecord (run ops s).
Proof.
  revert s. induction ops as [|o ops IH]; intros s Hone; simpl; [done|].
  apply IH. by apply runOp_oneEntry.
Qed.

(** X9: in a cache used by one caller at a time, two resolutions return
    the same pointer exactly when the two objects take the same path and
    have the same key on it: objects of one concrete type share a record,
    schema-less objects share one exactly when they declare the same GVK,
    and a typed and a schema-less object never do. *)
Theorem same_pointer_iff_same_key s obj obj' (ops : list op)
    (r r' : nat) s1 s2 :
  oneEntryPerRecord s →
  getResource obj s = (Ok r, s1) →
  getResource obj' (run ops s1) = (Ok r', s2) →
  r = r' ↔ pathOf obj = pathOf obj' ∧ sameKey (pathOf obj) obj obj'.
Proof.
  intros Hone Hget Hget'. rewrite getResource_pathOf in Hget, Hget'.
  assert (oneEntryPerRecord s1) as Hone1.
  { pose proof (getBy_oneEntry (pathOf obj) obj s Hone) as H1.
    by rewrite Hget in H1. }
  pose proof (run_oneEntry ops s1 Hone1) as Hone2.
  assert (oneEntryPerRecord s2) as [Hw Hd HiT HiG _].
  { pose proof (getBy_oneEntry (pathOf obj') obj' _ Hone2) as H2.
    by rewrite Hget' in H2. }
  assert (lookupBy (pathOf obj) obj (cache s2) = Some r) as Hl.
  { eapply extends_lookupBy; [|by eapply getBy_Ok_lookup].
    eapply extends_trans; [apply (run_extends ops)|].
    pose proof (getBy_extends (pathOf obj') obj' (run ops s1)) as He.
    by rewrite Hget' in He. }
  pose proof (getBy_Ok_lookup _ _ _ _ _ Hget') as Hl'.
  split.
  - intros <-. destruct (pathOf obj), (pathOf obj'); simpl in *.
    + split; [done|]. by eapply HiT.
    + by destruct (Hd _ _ _ Hl Hl').
    + by destruct (Hd _ _ _ Hl' Hl).
    + split; [done|]. by eapply HiG.
  - intros [Hp Hk]. rewrite <- Hp in Hl'.
    rewrite (lookupBy_sameKey _ obj obj') in Hl' by done. congruence.
Qed.

(** ** Entries and constructions *)

Lemma getBy_genuine (p : path) c0 obj s :
  sameWorld (cache s) c0 → genuine c0 s →
  sameWorld (cache (getBy p obj s).2) c0 ∧ genuine c0 (getBy p obj s).2.
Proof.
  intros Hw Hgen.
  destruct (getBy_cases p obj s) as [[Hc Hh]|(Hmiss & Hc & m & Hcons & Hh)].
  - split; [by rewrite Hc|].
    intros p' o r Hl. rewrite Hc in Hl.
    destruct (Hgen p' o r Hl) as (o' & m & Hk & Hd & Hm).
    exists o', m. unfold deref in *. by rewrite Hh.
  - split; [rewrite Hc; by apply sameWorld_insertBy|].
    assert (∀ (r : nat) m', deref s r = Some m' →
              deref (getBy p obj s).2 r = Some m') as Hkeep.
    { intros r m' Hd. unfold deref in *. rewrite Hh.
      by apply lookup_app_l_Some. }
    intros p' o r Hl. rewrite Hc in Hl.
    destruct (decide (p' = p)) as [->|Hp].
    + destruct (sameKey_dec p obj o) as [Hk|Hk].
      * rewrite lookupBy_insertBy_sameKey in Hl by by apply sameKey_sym.
        injection Hl as <-. exists obj, m. split; [done|]. split.
        -- unfold deref. by rewrite Hh, lookup_app_r, Nat.sub_diag.
        -- by rewrite <- (construct_sameWorld (cache s) c0 obj) by done.
      * rewrite lookupBy_insertBy_other in Hl by by right.
        destruct (Hgen p o r Hl) as (o' & m' & Hk' & Hd & Hm).
        exists o', m'. split; [done|]. split; [by apply Hkeep | done].
    + rewrite lookupBy_insertBy_other in Hl by by left.
      destruct (Hgen p' o r Hl) as (o' & m' & Hk' & Hd & Hm).
      exists o', m'. split; [done|]. split; [by apply Hkeep | done].
Qed.

Lemma runOp_genuine c0 (o : op) s :
  keepsWorld o = true → sameWorld (cache s) c0 → genuine c0 s →
  sameWorld (cache (runOp o s)) c0 ∧ genuine c0 (runOp o s).
Proof.
  intros Hk Hw Hgen. destruct o; simpl in *;
    rewrite ?getObjMeta_eq, ?getResource_pathOf; simpl; try done.
  1,4: by apply getBy_genuine.
  - by apply (getBy_genuine ByType).
  - by apply (getBy_genuine ByGVK).
Qed.

Lemma run_genuine c0 (ops : list op) s :
  Forall (λ o, keepsWorld o = true) ops →
  sameWorld (cache s) c0 → genuine c0 s →
  sameWorld (cache (run ops s)) c0 ∧ genuine c0 (run ops s).
Proof.
  revert s. induction ops as [|o ops IH]; intros s Hops Hw Hgen; simpl;
    [done|].
  apply Forall_cons in Hops as [Ho Hops].
  destruct (runOp_genuine c0 o s Ho Hw Hgen) as [Hw' Hgen'].
  by apply IH.
Qed.

(** X10: as long as the scheme, the mapper, the configuration and the
    codecs stay what they are, every entry of a table is genuine, in a
    cache that starts with genuine entries (a new one has none): it points
    to the record that [newResource] constructs, in that world, for some
    object with the key of the entry.  So the record under a key carries
    the kind the resolver derives for such an object (cut if it is a list),
    the REST mapping of that kind, and a typed client in the type table, a
    schema-less one in the GVK table. *)
Theorem entries_are_constructions s (ops : list op) :
  genuine (cache s) s →
  Forall (λ o, keepsWorld o = true) ops →
  let s1 := run ops s in
  genuine (cache s) s1 ∧
  ∀ p obj (r : nat), lookupBy p obj (cache s1) = Some r →
    ∃ obj' m g0,
      sameKey p obj' obj ∧ deref s1 r = Some m ∧
      GVKForObject obj' (scheme (cache s)) = Ok g0 ∧
      gvk m = itemGVK obj' g0 ∧
      RESTMappingOf (mapper (cache s)) (GroupKindOf (gvk m)) (Version (gvk m))
        = Ok (mapping m) ∧
      match p with
      | ByType => RESTClientForGVK (gvk m) (config (cache s)) (codecs (cache s))
      | ByGVK => RESTUnstructuredClientForGVK (gvk m) (config (cache s))
      end = Ok (restInterface m).
Proof.
  intros Hgen Hops s1.
  destruct (run_genuine (cache s) ops s Hops) as [_ Hgen1]; [done | done |].
  fold s1 in Hgen1. split; [done|].
  intros p obj r Hl.
  destruct (Hgen1 p obj r Hl) as (obj' & m & Hk & Hd & Hc).
  apply construct_Ok_cases in Hc as (g0 & Hg & Hgvk & Hcl & Hmp).
  exists obj', m, g0. repeat (split; [done|]).
  by destruct p.
Qed.

(** ** Callers with different keys *)

Lemma ownEntries_update (p : path) (pl : pool) sh' (l' : rwmutex) (i : nat)
    (t t' : thread) (st' : list nat) :
  ownEntries p pl → threads pl !! i = Some t →
  (∀ j tj r, j ≠ i → threads pl !! j = Some tj →
             lookupBy p (thObj tj) (cache (shared pl)) = Some r →
             lookupBy p (thObj tj) (cache sh') = Some r) →
  (∀ r, settled (thPc t') = Some r →
        lookupBy p (thObj t') (cache sh') = Some r) →
  ownEntries p (mkPool sh' l' (<[i := t']> (threads pl)) st').
Proof.
  intros Hown Hi Hothers Hself j tj r Hj Hr. simpl in *.
  apply list_lookup_insert_Some in Hj as [(<- & <- & _)|[Hne Hj]].
  - by apply Hself.
  - apply (Hothers j tj r); [done | done |]. by apply (Hown j tj r).
Qed.

Lemma stepPool_objs (p : path) (i : nat) (pl pl' : pool) :
  stepPool p i pl = Some pl' →
  map thObj (threads pl') = map thObj (threads pl).
Proof.
  unfold stepPool. destruct (threads pl !! i) as [t|] eqn:Hi; [|done].
  destruct (stepThread p t (shared pl) (mu pl)) as [[[[t' s'] l'] w]|] eqn:Hs;
    [|done].
  intros [= <-]. simpl.
  assert (thObj t' = thObj t) as Hobj.
  { unfold stepThread in Hs. destruct t as [o c b]. simpl in Hs.
    destruct c; simpl in Hs;
      repeat match type of Hs with
             | context [if ?x then _ else _] => destruct x
             | context [let (_, _) := ?x in _] => destruct x
             end; by simplify_eq. }
  rewrite list_fmap_insert, Hobj.
  apply list_insert_id. by rewrite list_lookup_fmap, Hi.
Qed.

Lemma stepPool_ownEntries (p : path) (objs : list Object) (i : nat)
    (pl pl' : pool) :
  distinctKeys p objs → map thObj (threads pl) = objs →
  ownEntries p pl → stepPool p i pl = Some pl' → ownEntries p pl'.
Proof.
  intros Hdist Hobjs Hown. unfold stepPool.
  destruct (threads pl !! i) as [t|] eqn:Hi; [|done].
  pose proof (λ sh' l' t' st', ownEntries_update p pl sh' l' i t t' st'
                                 Hown Hi) as Hupd.
  pose proof (λ r, Hown i t r Hi) as Hself.
  destruct t as [o c b]. unfold stepThread. simpl in *.
  destruct c as [| |known| | |r|res|res]; simpl in *.
  - destruct (writer (mu pl)); [done|]. intros [= <-].
    apply Hupd; simpl; done.
  - intros [= <-]. apply Hupd; simpl; [done|].
    by destruct (lookupBy p o (cache (shared pl))).
  - intros [= <-]. apply Hupd; simpl; [done|].
    intros r Hr. apply Hself. by destruct known.
  - destruct (writer (mu pl)); [done|]. simpl.
    destruct (readers (mu pl) =? 0); [|done]. simpl. intros [= <-].
    apply Hupd; simpl; done.
  - rewrite newResource_eq.
    destruct (construct _ _ _); intros [= <-]; apply Hupd; simpl; done.
  - intros [= <-]. apply Hupd; simpl.
    + intros j tj r' Hne Hj Hl.
      rewrite lookupBy_insertBy_other; [done|]. right. intros Hk.
      destruct Hne. symmetry. apply (Hdist i j o (thObj tj)); [| |done].
      * by rewrite <- Hobjs, list_lookup_fmap, Hi.
      * by rewrite <- Hobjs, list_lookup_fmap, Hj.
    + intros r' [= <-]. apply lookupBy_insertBy.
  - intros [= <-]. apply Hupd; simpl; [done|].
    intros r Hr. by apply Hself.
  - done.
Qed.

(** X11: callers whose objects have pairwise different keys do not undo
    one another's work.  Whatever the interleaving, a caller that has
    returned a pointer finds this pointer in the table under its key: an
    entry is overwritten only by a caller with the same key. *)
Theorem different_keys_keep_their_entries (p : path) s (objs : list Object)
    (sched : list nat) :
  distinctKeys p objs →
  let pl := runPool p sched (spawn s objs) in
  ∀ i o (r : nat), objs !! i = Some o → resultOf pl i = Some (Ok r) →
    lookupBy p o (cache (shared pl)) = Some r.
Proof.
  intros Hdist pl.
  assert (map thObj (threads pl) = objs ∧ ownEntries p pl) as [Hobjs Hown].
  { apply (runPool_invariant
             (λ pl, map thObj (threads pl) = objs ∧ ownEntries p pl)).
    - intros i pl0 pl1 [Ho Hown] Hstep. split.
      + by rewrite (stepPool_objs p i pl0 pl1).
      + by eapply stepPool_ownEntries.
    - split.
      + simpl. rewrite map_map. apply map_id.
      + intros i t r Hi Hr. simpl in Hi.
        apply list_lookup_fmap_Some in Hi as (o & -> & _). done. }
  intros i o r Hi (t & Ht & Hc)%resultOf_Some.
  assert (thObj t = o) as <-.
  { rewrite <- Hobjs, list_lookup_fmap, Ht in Hi. by injection Hi. }
  apply (Hown i t r Ht). by rewrite Hc.
Qed.

End FurtherProperties.

(** * The properties at work on the stub platform *)

Import Stub.

Lemma start_wellFormed : wellFormed start.
Proof. split; intros k r; simpl; by rewrite lookup_empty. Qed.

Lemma start_tablesDisjoint : tablesDisjoint start.
Proof. intros t k r; simpl; by rewrite lookup_empty. Qed.

(** A typed widget is resolved, then resolved again. *)
Lemma cached_record_is_returned_witness :
  let s1 := (getResourceByType aWidget start).2 in
  (∃ s0, getBy ByType aWidget s0 = (Ok 0, s1)) ∧
  getBy ByType aWidget s1 = (Ok 0, probed muByType s1) ∧
  calls (getBy ByType aWidget s1).2 = calls s1.
Proof.
  intros s1.
  assert (∃ s0, getBy ByType aWidget s0 = (Ok 0, s1)) as Hfirst
    by (exists start; vm_compute; reflexivity).
  split; [exact Hfirst|].
  destruct (cached_record_is_returned (P:=platform) ByType aWidget s1 0
              (or_intror Hfirst))
    as (Hhit & Hcalls & _).
  split; [exact Hhit | exact Hcalls].
Defined.

(** The first resolution of a typed widget. *)
Lemma miss_constructs_and_inserts_witness :
  let m := mkResourceMeta (TypedClient widgetGVK) widgetGVK widgets in
  lookupBy ByType aWidget (cache start) = None ∧
  construct (cache start) aWidget false = Ok m ∧
  lookupBy ByType aWidget (cache (getBy ByType aWidget start).2) = Some 0 ∧
  deref (getBy ByType aWidget start).2 0 = Some m.
Proof.
  intros m.
  assert (lookupBy ByType aWidget (cache start) = None) as Hmiss
    by reflexivity.
  assert (construct (cache start) aWidget false = Ok m) as Hcons
    by reflexivity.
  split; [exact Hmiss|]. split; [exact Hcons|].
  destruct (miss_constructs_and_inserts (P:=platform) ByType aWidget start m Hmiss Hcons)
    as (_ & _ & _ & Hl & Hd & _).
  split; [exact Hl | exact Hd].
Defined.

(** An object of a type the scheme does not know; then the type is
    registered and its kind mapped. *)
Lemma failed_construction_is_not_cached_witness :
  let gadgetGVK := mkGVK "apps" "v1" "Gadget" in
  let gadgets := mkMapping "gadgets" (mkScope "namespace") in
  lookupBy ByType aGadget (cache start) = None ∧
  GVKForObject aGadget (scheme (cache start)) = Err TypeResolutionError ∧
  ∃ s', getBy ByType aGadget start = (Err TypeResolutionError, s') ∧
        cache s' = cache start ∧ heap s' = heap start ∧
        (getBy ByType aGadget
           (withWorld true ((PtrTo "Gadget", gadgetGVK) :: theScheme)
                      (("Gadget", "v1", gadgets) :: theMapper) tt s')).1
        = Ok 0.
Proof.
  intros gadgetGVK gadgets.
  assert (lookupBy ByType aGadget (cache start) = None) as Hmiss
    by reflexivity.
  assert (GVKForObject aGadget (scheme (cache start)) = Err TypeResolutionError)
    as Hfail by reflexivity.
  split; [exact Hmiss|]. split; [exact Hfail|].
  destruct (failed_construction_is_not_cached (P:=platform) ByType aGadget start
              TypeResolutionError Hmiss (or_introl Hfail))
    as (s' & Hget & Hc & Hh & _ & _ & _ & Hretry).
  exists s'. split; [exact Hget|]. split; [exact Hc|]. split; [exact Hh|].
  rewrite (Hretry true ((PtrTo "Gadget", gadgetGVK) :: theScheme)
             (("Gadget", "v1", gadgets) :: theMapper) tt
             (mkResourceMeta (P:=platform) (TypedClient gadgetGVK) gadgetGVK
                gadgets)).
  - reflexivity.
  - reflexivity.
Defined.

(** A typed list of widgets: kind "WidgetList", a list container. *)
Lemma list_kind_resolves_to_item_kind_witness :
  let s' := (newResource aWidgetList false start).2 in
  newResource aWidgetList false start = (Ok 0, s') ∧
  ∃ m, deref s' 0 = Some m ∧ Kind (gvk m) = "Widget".
Proof.
  intros s'.
  assert (newResource aWidgetList false start = (Ok 0, s')) as Hnew
    by (vm_compute; reflexivity).
  split; [exact Hnew|].
  destruct (list_kind_resolves_to_item_kind (P:=platform) aWidgetList false
              start 0 s' Hnew)
    as (g0 & m & Hg & Hd & _ & _ & _ & Hw & _).
  exists m. split; [exact Hd|].
  apply Hw. split; [|reflexivity].
  assert (Ok (E:=stubError) widgetListGVK = Ok g0) as Heq by exact Hg.
  injection Heq as <-. reflexivity.
Defined.

(** A new cache. *)
Lemma tables_are_independent_witness :
  wellFormed start ∧ tablesDisjoint start ∧
  ∀ ops : list op, tablesDisjoint (run ops start).
Proof.
  split; [exact start_wellFormed|]. split; [exact start_tablesDisjoint|].
  intros ops.
  destruct (tables_are_independent (P:=platform) start)
    as (_ & _ & _ & _ & _ & Hops).
  exact (proj1 (Hops start_wellFormed start_tablesDisjoint ops)).
Defined.

(** A schema-less list of widgets, then a schema-less widget. *)
Lemma gvk_key_keeps_the_list_suffix_witness :
  let s1 := (getUnstructuredResourceByGVK uWidgetList start).2 in
  unstructuredResourceByGVK (cache start) !! ObjectGVK uWidgetList = None ∧
  GVKForObject uWidgetList (scheme (cache start)) = Ok (ObjectGVK uWidgetList) ∧
  HasSuffix (Kind (ObjectGVK uWidgetList)) "List" = true ∧
  IsListType uWidgetList = true ∧
  getUnstructuredResourceByGVK uWidgetList start = (Ok 0, s1) ∧
  unstructuredResourceByGVK (cache s1) !! widgetListGVK = Some 0 ∧
  (∃ m, deref s1 0 = Some m ∧ gvk m = widgetGVK) ∧
  (getUnstructuredResourceByGVK uWidget s1).1 = Ok 1.
Proof.
  intros s1.
  assert (unstructuredResourceByGVK (cache start) !! ObjectGVK uWidgetList
          = None) as H1 by reflexivity.
  assert (GVKForObject uWidgetList (scheme (cache start))
          = Ok (ObjectGVK uWidgetList)) as H2 by reflexivity.
  assert (HasSuffix (Kind (ObjectGVK uWidgetList)) "List" = true) as H3
    by reflexivity.
  assert (IsListType uWidgetList = true) as H4 by reflexivity.
  assert (getUnstructuredResourceByGVK uWidgetList start = (Ok 0, s1)) as H5
    by (vm_compute; reflexivity).
  repeat (split; [assumption|]).
  destruct (gvk_key_keeps_the_list_suffix (P:=platform) uWidgetList start 0 s1 H1 H2 H3 H4 H5)
    as (Hk & _ & _ & Hm & _ & _).
  split; [exact Hk|]. split; [exact Hm|].
  vm_compute. reflexivity.
Defined.


(** Both callers probe before either takes the write lock: both miss, both
    construct, and the table keeps the pointer of the second. *)
Example two_callers_construct_twice :
  let pl := runPool ByType [0; 1; 0; 1; 0; 1; 0; 0; 0; 0; 1; 1; 1; 1]
                    (spawn start [aWidget; aWidget]) in
  map thBuilt (threads pl) = [1; 1] ∧
  resultOf pl 0 = Some (Ok 0) ∧ resultOf pl 1 = Some (Ok 1) ∧
  deref (shared pl) 0 = deref (shared pl) 1 ∧
  length (heap (shared pl)) = 2 ∧
  stored pl = [1; 0] ∧
  lookupBy ByType aWidget (cache (shared pl)) = Some 1.
Proof. vm_compute. repeat split. Qed.


(** ** The cache at work *)

(** The typed widget of the stub platform: the first lookup makes the three
    calls and stores the record of the namespaced resource "widgets"; the
    second returns the same pointer and makes no call. *)
Example widget_end_to_end :
  let (r1, s1) := getResourceByType aWidget start in
  let (r2, s2) := getResourceByType aWidget s1 in
  r1 = Ok 0 ∧ r2 = Ok 0 ∧
  resource <$> deref s2 0 = Some "widgets" ∧
  isNamespaced <$> deref s2 0 = Some true ∧
  gvk <$> deref s2 0 = Some widgetGVK ∧
  length (calls s1) = 3 ∧ calls s2 = calls s1 ∧ heap s2 = heap s1.
Proof. vm_compute. repeat split. Qed.

(** A kind with root scope is not namespaced. *)
Example node_is_not_namespaced :
  let (r, s) := getResource aNode start in
  r = Ok 0 ∧ resource <$> deref s 0 = Some "nodes" ∧
  isNamespaced <$> deref s 0 = Some false.
Proof. vm_compute. repeat split. Qed.

(** One after the other, the two objects that share the key
    ("acl", "v1", "AllowList"): the second is a hit and gets the record the
    first left, of kind "Allow". *)
Example same_key_first_record_stays :
  let (r1, s1) := getResource listOfAllows aclStart in
  let (r2, s2) := getResource anAllowList s1 in
  r1 = Ok 0 ∧ r2 = Ok 0 ∧ gvk <$> deref s2 0 = Some allowGVK ∧
  construct (cache s2) anAllowList true
  = Ok (mkResourceMeta (SchemalessClient allowListGVK) allowListGVK allowlists).
Proof. vm_compute. repeat split. Qed.

(** [getObjMeta] of an object without accessor fails after the resolution
    has filled the table. *)
Example list_has_no_accessor :
  let (r, s) := getObjMeta aWidgetList start in
  r = Err AccessorError ∧
  lookupBy ByType aWidgetList (cache s) = Some 0 ∧
  gvk <$> deref s 0 = Some widgetGVK.
Proof. vm_compute. repeat split. Qed.

(** ** The further properties at work *)

Lemma start_oneEntryPerRecord : oneEntryPerRecord start.
Proof.
  split.
  - exact start_wellFormed.
  - exact start_tablesDisjoint.
  - intros k1 k2 r H1. simpl in H1. by rewrite lookup_empty in H1.
  - intros k1 k2 r H1. simpl in H1. by rewrite lookup_empty in H1.
  - reflexivity.
Qed.

Lemma start_genuine : genuine (cache start) start.
Proof. intros p obj r Hl. destruct p; simpl in Hl; by rewrite lookup_empty in Hl. Qed.

(** A typed widget is resolved, then a schema-less one. *)
Lemma resolved_pointer_is_valid_witness :
  wellFormed start ∧
  ∀ (r : nat) s',
    getResource uWidget (run [OpGetResource aWidget] start) = (Ok r, s') →
    wellFormed s' ∧ ∃ m, deref s' r = Some m.
Proof.
  split; [exact start_wellFormed|].
  exact (proj1 (proj2 (resolved_pointer_is_valid (P:=platform) start
                         [OpGetResource aWidget] uWidget start_wellFormed))).
Defined.

Lemma every_record_has_one_entry_witness :
  oneEntryPerRecord start ∧
  oneEntryPerRecord
    (run [OpGetResource aWidget; OpGetObjMeta uWidgetList; OpGetResource aGadget]
         start).
Proof.
  split; [exact start_oneEntryPerRecord|].
  exact (proj1 (every_record_has_one_entry (P:=platform) start
                  [OpGetResource aWidget; OpGetObjMeta uWidgetList;
                   OpGetResource aGadget] start_oneEntryPerRecord)).
Defined.

(** A typed list of widgets has no accessor. *)
Lemma getObjMeta_resolves_once_witness :
  let s1 := (getResource aWidgetList start).2 in
  getResource aWidgetList start = (Ok 0, s1) ∧
  (getObjMeta aWidgetList start).2 = s1 ∧
  getObjMeta aWidgetList s1 = (Err AccessorError, probed muByType s1).
Proof.
  intros s1.
  assert (getResource aWidgetList start = (Ok 0, s1)) as Hget
    by (vm_compute; reflexivity).
  split; [exact Hget|].
  destruct (getObjMeta_resolves_once (P:=platform) aWidgetList start 0 s1 Hget)
    as [Hfirst Hlater].
  split; [exact Hfirst|].
  exact (proj1 (Hlater [])).
Defined.

(** The first of two callers is about to construct. *)
Lemma write_section_runs_alone_witness :
  let pl := runPool ByType [0; 0; 0; 0] (spawn start [aWidget; aGadget]) in
  threads pl !! 0 = Some (mkThread aWidget AtNewResource 0) ∧
  writing AtNewResource = true ∧
  stepPool ByType 1 pl = None ∧
  mu pl = mkRW 0 true.
Proof.
  intros pl.
  assert (threads pl !! 0 = Some (mkThread (P:=platform) aWidget AtNewResource 0))
    as Hi by (vm_compute; reflexivity).
  split; [exact Hi|]. split; [reflexivity|].
  destruct (write_section_runs_alone (P:=platform) ByType start
              [aWidget; aGadget] [0; 0; 0; 0] 0
              (mkThread (P:=platform) aWidget AtNewResource 0) Hi eq_refl)
    as (_ & Hothers & Hmu).
  split; [|exact Hmu]. apply Hothers. discriminate.
Defined.

(** A caller for a cached widget, two readers inside, one ahead of it and
    one behind, neither of them at [Lock] yet. *)
Lemma hit_passes_among_readers_witness :
  let s1 := (getResourceByType aWidget start).2 in
  lookupBy ByType aWidget (cache s1) = Some 0 ∧
  countAt writeSide
    [mkThread aNode AtProbe 0; mkThread aGadget (AtRUnlock None) 0] = 0 ∧
  runPool ByType [1; 1; 1]
    (mkPool s1 (mkRW 2 false)
       [mkThread aNode AtProbe 0; mkThread aWidget AtRLock 0;
        mkThread aGadget (AtRUnlock None) 0] [])
  = mkPool (probed muByType s1) (mkRW 2 false)
      [mkThread aNode AtProbe 0; mkThread aWidget (Returned (Ok 0)) 0;
       mkThread aGadget (AtRUnlock None) 0] [].
Proof.
  intros s1.
  assert (lookupBy ByType aWidget (cache s1) = Some 0) as Hhit
    by (vm_compute; reflexivity).
  assert (countAt (P:=platform) writeSide
            ([mkThread aNode AtProbe 0] ++ [mkThread aGadget (AtRUnlock None) 0])
          = 0) as Hnone by reflexivity.
  split; [exact Hhit|]. split; [exact Hnone|].
  exact (proj1 (hit_passes_among_readers (P:=platform) ByType s1 2
                  [mkThread (P:=platform) aNode AtProbe 0] aWidget 0
                  [mkThread (P:=platform) aGadget (AtRUnlock None) 0] [] 0
                  Hhit Hnone)).
Defined.

Lemma pool_pointers_are_valid_witness :
  wellFormed start ∧
  ∀ sched : list nat,
    wellFormed (shared (runPool ByType sched (spawn start [aWidget; aGadget]))).
Proof.
  split; [exact start_wellFormed|].
  intros sched.
  exact (proj1 (pool_pointers_are_valid (P:=platform) ByType start
                  [aWidget; aGadget] sched start_wellFormed)).
Defined.

(** A typed and a schema-less widget. *)
Lemma same_pointer_iff_same_key_witness :
  let s1 := (getResource aWidget start).2 in
  let s2 := (getResource uWidget (run [] s1)).2 in
  oneEntryPerRecord start ∧
  getResource aWidget start = (Ok 0, s1) ∧
  getResource uWidget (run [] s1) = (Ok 1, s2) ∧
  ¬ (pathOf aWidget = pathOf uWidget ∧
     sameKey (pathOf aWidget) aWidget uWidget).
Proof.
  intros s1 s2.
  assert (getResource aWidget start = (Ok 0, s1)) as H1
    by (vm_compute; reflexivity).
  assert (getResource uWidget (run [] s1) = (Ok 1, s2)) as H2
    by (vm_compute; reflexivity).
  split; [exact start_oneEntryPerRecord|]. split; [exact H1|].
  split; [exact H2|].
  intros Hsame.
  apply (same_pointer_iff_same_key (P:=platform) start aWidget uWidget []
           0 1 s1 s2 start_oneEntryPerRecord H1 H2) in Hsame.
  discriminate Hsame.
Defined.

Lemma entries_are_constructions_witness :
  genuine (cache start) start ∧
  Forall (λ o, keepsWorld o = true)
         [OpGetResource aWidgetList; OpGetObjMeta uWidget] ∧
  genuine (cache start)
          (run [OpGetResource aWidgetList; OpGetObjMeta uWidget] start).
Proof.
  assert (Forall (λ o, keepsWorld (P:=platform) o = true)
            [OpGetResource aWidgetList; OpGetObjMeta uWidget]) as Hops
    by (repeat constructor).
  split; [exact start_genuine|]. split; [exact Hops|].
  exact (proj1 (entries_are_constructions (P:=platform) start
                  [OpGetResource aWidgetList; OpGetObjMeta uWidget]
                  start_genuine Hops)).
Defined.

(** A caller for a widget and a caller for a node. *)
Lemma different_keys_keep_their_entries_witness :
  distinctKeys ByType [aWidget; aNode] ∧
  ∀ (sched : list nat) (r : nat),
    resultOf (runPool ByType sched (spawn start [aWidget; aNode])) 1
      = Some (Ok r) →
    lookupBy ByType aNode
      (cache (shared (runPool ByType sched (spawn start [aWidget; aNode]))))
      = Some r.
Proof.
  assert (distinctKeys (P:=platform) ByType [aWidget; aNode]) as Hdist.
  { intros [|[|i]] [|[|j]] oi oj Hi Hj Hk; simpl in *; simplify_eq; done. }
  split; [exact Hdist|].
  intros sched r.
  exact (different_keys_keep_their_entries (P:=platform) ByType start
           [aWidget; aNode] sched Hdist 1 aNode r eq_refl).
Defined.
